(** * dns-sd: the event aggregation and debouncing engine of [src/index.cts]

    A shallow embedding of the two session classes of the CJS entry point,
    [DnsSdBrowse] and [DnsSdAdvertisement], together with the part of the
    JavaScript runtime they rely on (the queue of live timeouts), and the
    properties of the specification stated over it. *)

From Stdlib Require Import ZArith Ascii.
From stdpp Require Import gmap strings.

Local Open Scope string_scope.
Local Open Scope list_scope.
Local Open Scope nat_scope.

(** ** Address normalisation: [addr.replace(/%[^%]+$/, '')] *)

Module Normalizer.

Definition is_percent (c : ascii) : bool := Ascii.eqb c "%"%char.

(** [[^%]*] up to the end of the input: no code unit of [s] is a percent
    sign. *)
Fixpoint no_percent (s : string) : bool :=
  match s with
  | EmptyString => true
  | String c rest => negb (is_percent c) && no_percent rest
  end.

Definition nonempty (s : string) : bool :=
  match s with EmptyString => false | String _ _ => true end.

(** The pattern [%[^%]+$] tried at the head of [s]. *)
Definition matches_here (s : string) : bool :=
  match s with
  | EmptyString => false
  | String c rest => is_percent c && nonempty rest && no_percent rest
  end.

(** [String.prototype.replace] with a non-global pattern: the leftmost
    match is replaced, here by the empty string.  Since the pattern is
    anchored at the end, a match always runs to the end of the input and
    nothing follows the replacement. *)
Fixpoint strip_scope (s : string) : string :=
  match s with
  | EmptyString => EmptyString
  | String c rest =>
      if matches_here s then EmptyString else String c (strip_scope rest)
  end.

(** The normaliser as the specification words it: the substring starting
    at the last percent sign, through the end, is removed.  Used only to be
    compared with [strip_scope]. *)
Fixpoint cut_last_percent (s : string) : string :=
  match s with
  | EmptyString => EmptyString
  | String c rest =>
      if is_percent c && no_percent rest then EmptyString
      else String c (cut_last_percent rest)
  end.

Fixpoint count_percent (s : string) : nat :=
  match s with
  | EmptyString => 0
  | String c rest => (if is_percent c then 1 else 0) + count_percent rest
  end.

End Normalizer.

Export Normalizer.

(** ** The data model *)

(** [type Service]: [txt] and [ttl] are optional properties; a port or a
    time to live is an integer. *)
Record Service := mkService {
  name : string;
  type : string;
  domain : string;
  hostName : string;
  addresses : list string;
  port : Z;
  txt : option (gmap string string);
  ttl : option Z;
}.

(** [`${s.name}|${s.type}|${s.domain}`] *)
Definition service_key (s : Service) : string :=
  name s +:+ "|" +:+ type s +:+ "|" +:+ domain s.

(** [Array.from(new Set(l))]: a [Set] keeps the first occurrence of every
    value, in insertion order. *)
Fixpoint set_from (l : list string) : list string :=
  match l with
  | [] => []
  | x :: l' => x :: filter (λ y, y ≠ x) (set_from l')
  end.

(** Truthiness of an optional number: [undefined] and [0] are falsy. *)
Definition truthy (n : option Z) : bool :=
  match n with
  | Some z => negb (z =? 0)%Z
  | None => false
  end.

(** The branch of the [serviceFound] case taken when the table has no
    entry under the key: a shallow copy with the addresses normalised. *)
Definition create_entry (incoming : Service) : Service :=
  {| name := name incoming;
     type := type incoming;
     domain := domain incoming;
     hostName := hostName incoming;
     addresses := strip_scope <$> addresses incoming;
     port := port incoming;
     txt := txt incoming;
     ttl := ttl incoming |}.

(** [{ ...service.txt, ...incoming.txt }]: the keys of the second object
    overwrite those of the first; spreading [undefined] adds nothing. *)
Definition spread_txt (old : option (gmap string string))
    (new : gmap string string) : gmap string string :=
  new ∪ default ∅ old.

(** The branch taken when the table already holds [service]. *)
Definition merge_entry (service incoming : Service) : Service :=
  let allAddresses := set_from (addresses service ++ addresses incoming) in
  {| name := name service;
     type := type service;
     domain := domain service;
     hostName := hostName incoming;
     addresses := strip_scope <$> allAddresses;
     port := port incoming;
     txt := match txt incoming with
            | Some t => Some (spread_txt (txt service) t)
            | None => txt service
            end;
     ttl := if truthy (ttl incoming) then ttl incoming else ttl service |}.

Definition merge_found (existing : option Service) (incoming : Service)
    : Service :=
  match existing with
  | Some service => merge_entry service incoming
  | None => create_entry incoming
  end.


(** ** The browse session *)

Definition DEBOUNCE_TIMEOUT : nat := 100.

(** What the session emits to its listeners. *)
Inductive Notification :=
  | serviceFound (service : Service)
  | serviceLost (service : Service)
  | error (message : string).

(** What the addon passes to the callback: the event name and its data.
    [RawOther] stands for any event name the [switch] has no case for. *)
Inductive RawEvent :=
  | RawFound (data : Service)
  | RawLost (data : Service)
  | RawError (data : string)
  | RawOther (event : string).

(** A live timeout of the event loop: the handle [setTimeout] returned,
    the key its closure captured and the time it is due. *)
Record Timeout := mkTimeout {
  t_handle : nat;
  t_key : string;
  t_due : nat;
}.

(** The private fields of [DnsSdBrowse], followed by the part of the
    environment the class acts on: the queue of live timeouts in creation
    order, the next fresh handle, and the handles [addon.stopBrowse] was
    called with. *)
Record DnsSdBrowse := mkBrowse {
  _handle : Z;
  _stopped : bool;
  _services : gmap string Service;
  _pendingEmit : gmap string nat;
  timeouts : list Timeout;
  next_timeout : nat;
  stopBrowse_calls : list Z;
}.

(** [new DnsSdBrowse(serviceType)], the addon having returned [handle]. *)
Definition new_browse (handle : Z) : DnsSdBrowse :=
  {| _handle := handle;
     _stopped := false;
     _services := ∅;
     _pendingEmit := ∅;
     timeouts := [];
     next_timeout := 1;
     stopBrowse_calls := [] |}.

Definition clearTimeout (h : nat) (queue : list Timeout) : list Timeout :=
  filter (λ t, t_handle t ≠ h) queue.

(** [case 'serviceFound']: merge, then restart the debounce timeout. *)
Definition on_serviceFound (now : nat) (incoming : Service)
    (b : DnsSdBrowse) : DnsSdBrowse :=
  let key := service_key incoming in
  let service := merge_found (_services b !! key) incoming in
  let queue :=
    match _pendingEmit b !! key with
    | Some existingTimeout => clearTimeout existingTimeout (timeouts b)
    | None => timeouts b
    end in
  let timeout := next_timeout b in
  {| _handle := _handle b;
     _stopped := _stopped b;
     _services := <[key := service]> (_services b);
     _pendingEmit := <[key := timeout]> (_pendingEmit b);
     timeouts := queue ++ [mkTimeout timeout key (now + DEBOUNCE_TIMEOUT)];
     next_timeout := S timeout;
     stopBrowse_calls := stopBrowse_calls b |}.

(** [case 'serviceLost'] *)
Definition on_serviceLost (lost : Service) (b : DnsSdBrowse)
    : DnsSdBrowse * list Notification :=
  let key := service_key lost in
  match _services b !! key with
  | Some service =>
      let cleared :=
        match _pendingEmit b !! key with
        | Some timeout =>
            (clearTimeout timeout (timeouts b), delete key (_pendingEmit b))
        | None => (timeouts b, _pendingEmit b)
        end in
      ({| _handle := _handle b;
          _stopped := _stopped b;
          _services := delete key (_services b);
          _pendingEmit := cleared.2;
          timeouts := cleared.1;
          next_timeout := next_timeout b;
          stopBrowse_calls := stopBrowse_calls b |},
       [serviceLost service])
  | None => (b, [])
  end.

(** The callback handed to [addon.browseServices]. *)
Definition browse_callback (now : nat) (event : RawEvent) (b : DnsSdBrowse)
    : DnsSdBrowse * list Notification :=
  if _stopped b then (b, [])
  else
    match event with
    | RawFound incoming => (on_serviceFound now incoming b, [])
    | RawLost lost => on_serviceLost lost b
    | RawError data => (b, [error data])
    | RawOther _ => (b, [])
    end.

(** The closure handed to [setTimeout], for the key it captured. *)
Definition debounce_expired (key : string) (b : DnsSdBrowse)
    : DnsSdBrowse * list Notification :=
  let b' :=
    {| _handle := _handle b;
       _stopped := _stopped b;
       _services := _services b;
       _pendingEmit := delete key (_pendingEmit b);
       timeouts := timeouts b;
       next_timeout := next_timeout b;
       stopBrowse_calls := stopBrowse_calls b |} in
  match _services b' !! key with
  | Some svc =>
      if negb (_stopped b') && (0 <? length (addresses svc))
      then (b', [serviceFound svc])
      else (b', [])
  | None => (b', [])
  end.

(** [stop()] *)
Definition stop (b : DnsSdBrowse) : DnsSdBrowse :=
  if _stopped b then b
  else
    {| _handle := _handle b;
       _stopped := true;
       _services := _services b;
       _pendingEmit := ∅;
       timeouts := foldr clearTimeout (timeouts b)
                     (map_to_list (_pendingEmit b)).*2;
       next_timeout := next_timeout b;
       stopBrowse_calls := stopBrowse_calls b ++ [_handle b] |}.

(** The event loop runs the timeout with handle [h], if it is live: the
    timeout leaves the queue and its closure is called. *)
Definition fire (h : nat) (b : DnsSdBrowse)
    : DnsSdBrowse * list Notification :=
  match list_find (λ t, t_handle t = h) (timeouts b) with
  | Some (_, t) =>
      debounce_expired (t_key t)
        {| _handle := _handle b;
           _stopped := _stopped b;
           _services := _services b;
           _pendingEmit := _pendingEmit b;
           timeouts := clearTimeout h (timeouts b);
           next_timeout := next_timeout b;
           stopBrowse_calls := stopBrowse_calls b |}
  | None => (b, [])
  end.

(** Everything that can happen to a session: the addon calls back at some
    time, a timeout fires, the caller stops the session. *)
Inductive Action :=
  | Raw (now : nat) (event : RawEvent)
  | Fire (h : nat)
  | Stop.

Definition step (a : Action) (b : DnsSdBrowse)
    : DnsSdBrowse * list Notification :=
  match a with
  | Raw now event => browse_callback now event b
  | Fire h => fire h b
  | Stop => (stop b, [])
  end.

Fixpoint exec (acts : list Action) (b : DnsSdBrowse)
    : DnsSdBrowse * list Notification :=
  match acts with
  | [] => (b, [])
  | a :: acts' =>
      let (b1, out1) := step a b in
      let (b2, out2) := exec acts' b1 in
      (b2, out1 ++ out2)
  end.

(** *** Timed runs

    Time is counted in milliseconds.  A timeout is due once the clock has
    reached its due time; due timeouts run in creation order, before the
    input that arrives at that time. *)

Definition is_due (now : nat) (t : Timeout) : bool := (t_due t <=? now).

Fixpoint fire_all (ts : list Timeout) (b : DnsSdBrowse)
    : DnsSdBrowse * list (nat * Notification) :=
  match ts with
  | [] => (b, [])
  | t :: ts' =>
      let (b1, out) := fire (t_handle t) b in
      let (b2, log) := fire_all ts' b1 in
      (b2, ((λ n, (t_due t, n)) <$> out) ++ log)
  end.

Definition advance (now : nat) (b : DnsSdBrowse)
    : DnsSdBrowse * list (nat * Notification) :=
  fire_all (filter (λ t, is_due now t = true) (timeouts b)) b.

Inductive Input :=
  | InRaw (event : RawEvent)
  | InStop.

Definition input_action (now : nat) (i : Input) : Action :=
  match i with
  | InRaw event => Raw now event
  | InStop => Stop
  end.

(** The loop up to and including the input [i] arriving at [now]. *)
Definition timed_step (now : nat) (i : Input) (b : DnsSdBrowse)
    : DnsSdBrowse * list (nat * Notification) :=
  let (b1, log1) := advance now b in
  let (b2, out) := step (input_action now i) b1 in
  (b2, log1 ++ ((λ n, (now, n)) <$> out)).

Fixpoint run (sched : list (nat * Input)) (b : DnsSdBrowse)
    : DnsSdBrowse * list (nat * Notification) :=
  match sched with
  | [] => (b, [])
  | (now, i) :: sched' =>
      let (b1, log1) := timed_step now i b in
      let (b2, log2) := run sched' b1 in
      (b2, log1 ++ log2)
  end.

(** The schedule [sched], then quiet until [horizon]. *)
Definition run_until (horizon : nat) (sched : list (nat * Input))
    (b : DnsSdBrowse) : DnsSdBrowse * list (nat * Notification) :=
  let (b1, log1) := run sched b in
  let (b2, log2) := advance horizon b1 in
  (b2, log1 ++ log2).

(** The [serviceFound] and [serviceLost] notifications of a log. *)
Definition found_in (log : list (nat * Notification))
    : list (nat * Service) :=
  omap (λ e, match e.2 with serviceFound s => Some (e.1, s) | _ => None end)
       log.

Definition lost_in (log : list (nat * Notification))
    : list (nat * Service) :=
  omap (λ e, match e.2 with serviceLost s => Some (e.1, s) | _ => None end)
       log.

(** The notifications that concern the table entry under [key]. *)
Definition about (key : string) (log : list (nat * Service))
    : list (nat * Service) :=
  filter (λ e, service_key e.2 = key) log.

(** ** The advertise session *)

Inductive AdvertiseNotification :=
  | registered (name : string)
  | adv_error (message : string).

Inductive AdvertiseEvent :=
  | RawRegistered (data : string)
  | RawAdvError (data : string)
  | RawAdvOther (event : string).

Record DnsSdAdvertisement := mkAdvertisement {
  adv_handle : Z;
  adv_stopped : bool;
  stopAdvertise_calls : list Z;
}.

Definition new_advertisement (handle : Z) : DnsSdAdvertisement :=
  {| adv_handle := handle; adv_stopped := false; stopAdvertise_calls := [] |}.

Definition advertise_callback (event : AdvertiseEvent)
    (a : DnsSdAdvertisement) : list AdvertiseNotification :=
  if adv_stopped a then []
  else
    match event with
    | RawRegistered data => [registered data]
    | RawAdvError data => [adv_error data]
    | RawAdvOther _ => []
    end.

Definition adv_stop (a : DnsSdAdvertisement) : DnsSdAdvertisement :=
  if adv_stopped a then a
  else
    {| adv_handle := adv_handle a;
       adv_stopped := true;
       stopAdvertise_calls := stopAdvertise_calls a ++ [adv_handle a] |}.

Inductive AdvAction :=
  | AdvRaw (event : AdvertiseEvent)
  | AdvStop.

Definition adv_step (act : AdvAction) (a : DnsSdAdvertisement)
    : DnsSdAdvertisement * list AdvertiseNotification :=
  match act with
  | AdvRaw event => (a, advertise_callback event a)
  | AdvStop => (adv_stop a, [])
  end.

Fixpoint adv_exec (acts : list AdvAction) (a : DnsSdAdvertisement)
    : DnsSdAdvertisement * list AdvertiseNotification :=
  match acts with
  | [] => (a, [])
  | act :: acts' =>
      let (a1, out1) := adv_step act a in
      let (a2, out2) := adv_exec acts' a1 in
      (a2, out1 ++ out2)
  end.

(** ** The invariant of a browse session *)

(** Every live timeout is the one the session remembers for its key,
    every table entry sits under its own key, the live timeouts are
    distinct, with distinct handles older than the next one, and a stopped
    session has no timeout left. *)
Record wf (b : DnsSdBrowse) : Prop := mk_wf {
  wf_pending :
    ∀ t, t ∈ timeouts b → _pendingEmit b !! t_key t = Some (t_handle t);
  wf_keys : ∀ k s, _services b !! k = Some s → service_key s = k;
  wf_fresh : ∀ t, t ∈ timeouts b → t_handle t < next_timeout b;
  wf_unique :
    ∀ t t', t ∈ timeouts b → t' ∈ timeouts b →
            t_handle t = t_handle t' → t = t';
  wf_nodup : NoDup (timeouts b);
  wf_stopped : _stopped b = true → timeouts b = [] ∧ _pendingEmit b = ∅;
}.


(** ** Reading the optional [txt] object, and concrete records *)

(** [service.txt?.[k]] *)
Definition txt_lookup (s : Service) (k : string) : option string :=
  txt s ≫= (.!! k).

Definition printer (addrs : list string) : Service :=
  {| name := "printer";
     type := "_ipp._tcp";
     domain := "local.";
     hostName := "printer.local.";
     addresses := addrs;
     port := 631;
     txt := None;
     ttl := None |}.

Definition with_txt (t : gmap string string) (s : Service) : Service :=
  {| name := name s; type := type s; domain := domain s;
     hostName := hostName s; addresses := addresses s; port := port s;
     txt := Some t; ttl := ttl s |}.

Definition is_Stop (a : Action) : bool :=
  match a with Stop => true | _ => false end.

Definition is_AdvStop (a : AdvAction) : bool :=
  match a with AdvStop => true | _ => false end.

(** How a raw advertise event reads as a notification, one for one. *)
Definition forwarded (event : AdvertiseEvent) : list AdvertiseNotification :=
  match event with
  | RawRegistered data => [registered data]
  | RawAdvError data => [adv_error data]
  | RawAdvOther _ => []
  end.

(** A [serviceFound] notification must carry an address. *)
Definition found_has_address (n : Notification) : Prop :=
  match n with
  | serviceFound service => addresses service ≠ []
  | _ => True
  end.


(** *** Bursts of [Found] events *)

Definition found_at (e : nat * Service) : nat * Input :=
  (e.1, InRaw (RawFound e.2)).

(** Every event arrives less than a debounce interval after the one
    before it, [prev] being the time of the event before the first. *)
Fixpoint within_window (prev : nat) (evs : list (nat * Service)) : Prop :=
  match evs with
  | [] => True
  | e :: evs' =>
      (prev ≤ e.1 ∧ e.1 < prev + DEBOUNCE_TIMEOUT) ∧ within_window e.1 evs'
  end.

(** The time of the last event. *)
Fixpoint last_time (prev : nat) (evs : list (nat * Service)) : nat :=
  match evs with
  | [] => prev
  | e :: evs' => last_time e.1 evs'
  end.

(** The table entry after the events of a burst were merged in order. *)
Definition aggregate (existing : option Service) (first : Service)
    (rest : list Service) : Service :=
  foldl merge_entry (merge_found existing first) rest.

(** What the expiry of a timeout emits, and when. *)
Definition expiry_log (b : DnsSdBrowse) (t : Timeout)
    : list (nat * Notification) :=
  match _services b !! t_key t with
  | Some svc =>
      if 0 <? length (addresses svc) then [(t_due t, serviceFound svc)]
      else []
  | None => []
  end.

(** [key] has the entry [agg] and its debounce timeout is due at [due]. *)
Definition pending_for (key : string) (due : nat) (agg : Service)
    (b : DnsSdBrowse) : Prop :=
  wf b ∧ _stopped b = false ∧ _services b !! key = Some agg
  ∧ ∃ h, mkTimeout h key due ∈ timeouts b.

(** Two identities that differ in name and domain and share a key. *)
Definition den_tv (addrs : list string) : Service :=
  {| name := "tv";
     type := "_http._tcp";
     domain := "den|_http._tcp|local.";
     hostName := "den-tv.local.";
     addresses := addrs;
     port := 8008;
     txt := None;
     ttl := None |}.

Definition attic_tv (addrs : list string) : Service :=
  {| name := "tv|_http._tcp|den";
     type := "_http._tcp";
     domain := "local.";
     hostName := "attic-tv.local.";
     addresses := addrs;
     port := 8009;
     txt := None;
     ttl := None |}.


(** ** Reading traces *)

(** The messages of the [error] notifications of an output. *)
Definition errors_of (out : list Notification) : list string :=
  omap (λ n, match n with error message => Some message | _ => None end) out.

(** The data of the raw [error] events that arrive before the first
    [stop()]. *)
Fixpoint raw_errors_until_stop (acts : list Action) : list string :=
  match acts with
  | [] => []
  | Stop :: _ => []
  | Raw _ (RawError data) :: acts' => data :: raw_errors_until_stop acts'
  | _ :: acts' => raw_errors_until_stop acts'
  end.

(** The records the [serviceFound] events of a trace carried. *)
Definition found_events (acts : list Action) : list Service :=
  omap (λ a, match a with Raw _ (RawFound data) => Some data | _ => None end)
       acts.

(** The record a notification carries, if it carries one. *)
Definition carried (n : Notification) : option Service :=
  match n with
  | serviceFound service | serviceLost service => Some service
  | error _ => None
  end.

(** Name, type and domain. *)
Definition identity (s : Service) : string * string * string :=
  (name s, type s, domain s).

(** *** Properties of entries that events establish and merges keep

    [P key entry] is a property of the table entry under [key], [Q] one of
    the records the [serviceFound] events carry. *)

Definition table_ok (P : string → Service → Prop) (b : DnsSdBrowse) : Prop :=
  ∀ k e, _services b !! k = Some e → P k e.

Definition events_ok (Q : Service → Prop) (acts : list Action) : Prop :=
  Forall (λ a, match a with Raw _ (RawFound data) => Q data | _ => True end)
         acts.

Definition carried_ok (P : string → Service → Prop)
    (out : list Notification) : Prop :=
  Forall (λ n, match carried n with
               | Some e => ∃ k, P k e
               | None => True
               end) out.

(** The entry bears the name, type and domain of a reported record with
    its key, the host name and port of another, and only addresses that
    were reported, normalised at least once. *)
Definition from_reports (seen : list Service) (k : string) (e : Service)
    : Prop :=
  service_key e = k
  ∧ (∃ s, s ∈ seen ∧ service_key s = k ∧ identity e = identity s)
  ∧ (∃ s, s ∈ seen ∧ service_key s = k
          ∧ hostName e = hostName s ∧ port e = port s)
  ∧ (∀ a, a ∈ addresses e →
          ∃ s a' n, s ∈ seen ∧ service_key s = k ∧ a' ∈ addresses s
                    ∧ a = Nat.iter (S n) strip_scope a').

(** The addresses hold no percent sign and no duplicate. *)
Definition plain_addresses (s : Service) : Prop :=
  NoDup (addresses s) ∧ Forall (λ a, no_percent a = true) (addresses s).

(** Every timeout the session remembers is live, and for an entry of the
    table. *)
Definition tracked (b : DnsSdBrowse) : Prop :=
  ∀ k h, _pendingEmit b !! k = Some h →
         (∃ due, mkTimeout h k due ∈ timeouts b) ∧ is_Some (_services b !! k).

(** The value [foldl merge_entry] leaves in [ttl]: the last incoming one
    that is present and not zero, or else the one of the entry. *)
Definition last_ttl (entry : Service) (incoming : list Service) : option Z :=
  foldl (λ acc s, if truthy (ttl s) then ttl s else acc) (ttl entry) incoming.

(** A raw [serviceFound] event at a given time, as an action. *)
Definition found_action (e : nat * Service) : Action :=
  Raw e.1 (RawFound e.2).

(** The key a raw event is about, if it is about one. *)
Definition event_key (event : RawEvent) : option string :=
  match event with
  | RawFound data | RawLost data => Some (service_key data)
  | RawError _ | RawOther _ => None
  end.

(** *** Emissions and the reports they answer *)

(** The timeout was set by a [serviceFound] event of the schedule: it has
    the key of the event and is due one debounce interval after it. *)
Definition set_by (sched : list (nat * Input)) (t : Timeout) : Prop :=
  ∃ now data, (now, InRaw (RawFound data)) ∈ sched
              ∧ t_due t = now + DEBOUNCE_TIMEOUT
              ∧ t_key t = service_key data.

(** The emission answers a [serviceFound] event of the schedule: it comes
    one debounce interval after the event and carries a record with the
    key of the event. *)
Definition answers (sched : list (nat * Input)) (e : nat * Service) : Prop :=
  ∃ now data, (now, InRaw (RawFound data)) ∈ sched
              ∧ e.1 = now + DEBOUNCE_TIMEOUT
              ∧ service_key e.2 = service_key data.

(** *** Counting events and notifications by key *)

Definition count_key (k : string) (keys : list string) : nat :=
  length (filter (λ x, x = k) keys).

Definition reported_keys (acts : list Action) : list string :=
  service_key <$> found_events acts.

Definition announced_keys (out : list Notification) : list string :=
  omap (λ n, match n with
             | serviceFound service => Some (service_key service)
             | _ => None
             end) out.

Definition lost_keys (out : list Notification) : list string :=
  omap (λ n, match n with
             | serviceLost service => Some (service_key service)
             | _ => None
             end) out.

(** One if the map has the key, zero if not. *)
Definition has_key {A : Type} (m : gmap string A) (k : string) : nat :=
  match m !! k with Some _ => 1 | None => 0 end.

(** *** A burst among other events *)

(** What a session may receive while a burst for [key] is under way: raw
    events only, and no [serviceLost] for [key]. *)
Definition burst_input (key : string) (x : nat * Input) : Prop :=
  match x.2 with
  | InRaw (RawLost data) => service_key data ≠ key
  | InRaw _ => True
  | InStop => False
  end.

(** The [serviceFound] events of a schedule that are about [key], with
    their times. *)
Definition burst_of (key : string) (sched : list (nat * Input))
    : list (nat * Service) :=
  omap (λ x, match x.2 with
             | InRaw (RawFound data) =>
                 if decide (service_key data = key) then Some (x.1, data)
                 else None
             | _ => None
             end) sched.

(** The times of a schedule do not go backwards, and start at [prev] or
    later. *)
Fixpoint ordered (prev : nat) (sched : list (nat * Input)) : Prop :=
  match sched with
  | [] => True
  | x :: sched' => prev ≤ x.1 ∧ ordered x.1 sched'
  end.
(** * Properties *)

(** ** The normaliser *)

Section NormalizerFacts.

Lemma no_percent_count (s : string) :
  no_percent s = true ↔ count_percent s = 0.
Proof.
  induction s as [|c rest IH]; simpl; [done|].
  destruct (is_percent c); simpl; [split; [done | lia]|].
  exact IH.
Qed.

Lemma strip_scope_no_percent (s : string) :
  no_percent s = true → strip_scope s = s.
Proof.
  induction s as [|c rest IH]; [done|].
  cbn [no_percent strip_scope matches_here].
  intros [Hc Hrest]%andb_prop.
  apply negb_true_iff in Hc. rewrite Hc. cbn. by rewrite IH.
Qed.

Lemma no_percent_app (s1 s2 : string) :
  no_percent (s1 +:+ s2) = no_percent s1 && no_percent s2.
Proof.
  induction s1 as [|c rest IH]; [done|].
  change (String c rest +:+ s2) with (String c (rest +:+ s2)).
  cbn [no_percent]. by rewrite IH, andb_assoc.
Qed.

(** Inside a prefix that a percent sign follows, the pattern cannot match:
    whatever comes after the candidate position still holds that sign. *)
Lemma strip_scope_prefix (p tail : string) :
  no_percent tail = false →
  strip_scope (p +:+ tail) = p +:+ strip_scope tail.
Proof.
  intros Htail. induction p as [|c rest IH]; [done|].
  change (String c rest +:+ tail) with (String c (rest +:+ tail)).
  cbn [strip_scope matches_here].
  rewrite no_percent_app, Htail, !andb_false_r.
  by rewrite IH.
Qed.

Lemma strip_scope_suffix (p suffix : string) :
  nonempty suffix = true → no_percent suffix = true →
  strip_scope (p +:+ "%" +:+ suffix) = p.
Proof.
  intros Hne Hnp. rewrite strip_scope_prefix by done.
  change ("%" +:+ suffix) with (String "%" suffix).
  cbn [strip_scope matches_here]. rewrite Hne, Hnp.
  change (is_percent "%") with true. cbn [andb].
  induction p as [|c rest IH]; [done|].
  change (String c rest +:+ "") with (String c (rest +:+ "")).
  by rewrite IH.
Qed.

Lemma strip_scope_trailing (p : string) :
  strip_scope (p +:+ "%") = p +:+ "%".
Proof. by rewrite strip_scope_prefix. Qed.

Lemma strip_scope_count (s : string) :
  strip_scope s = s ∨ count_percent (strip_scope s) < count_percent s.
Proof.
  induction s as [|c rest IH]; [by left|].
  cbn [strip_scope]. destruct (matches_here (String c rest)) eqn:Hm.
  - right. cbn [matches_here] in Hm.
    destruct (is_percent c) eqn:Hc; [|simpl in Hm; discriminate].
    cbn [count_percent]. rewrite Hc. simpl. lia.
  - destruct IH as [-> | IH]; [by left|].
    right. cbn [count_percent]. lia.
Qed.

Lemma strip_scope_idem_simple (s : string) :
  count_percent s ≤ 1 → strip_scope (strip_scope s) = strip_scope s.
Proof.
  intros Hs. destruct (strip_scope_count s) as [Heq | Hlt]; [by rewrite !Heq|].
  apply strip_scope_no_percent, no_percent_count. lia.
Qed.

End NormalizerFacts.

(** C3, as the code has it: the normaliser removes the part of an address
    that starts at its last percent sign when at least one character
    follows that sign ([fe80::1%eth0] becomes [fe80::1]); an address with
    no percent sign, or whose last character is one, is left unchanged; and
    normalising twice equals normalising once for every address with at
    most one percent sign. *)
Theorem strip_scope_spec :
  strip_scope "fe80::1%eth0" = "fe80::1" ∧
  (∀ p suffix : string,
     nonempty suffix = true → no_percent suffix = true →
     strip_scope (p +:+ "%" +:+ suffix) = p
     ∧ cut_last_percent (p +:+ "%" +:+ suffix) = p) ∧
  (∀ s : string, no_percent s = true → strip_scope s = s) ∧
  (∀ p : string, strip_scope (p +:+ "%") = p +:+ "%") ∧
  (∀ s : string,
     count_percent s ≤ 1 → strip_scope (strip_scope s) = strip_scope s).
Proof.
  split; [done|]. split; [|split; [|split]].
  - intros p suffix Hne Hnp. split; [by apply strip_scope_suffix|].
    induction p as [|c rest IH].
    + change ("" +:+ "%" +:+ suffix) with (String "%" suffix).
      cbn [cut_last_percent]. by rewrite Hnp.
    + change (String c rest +:+ "%" +:+ suffix)
        with (String c (rest +:+ "%" +:+ suffix)).
      cbn [cut_last_percent]. rewrite no_percent_app.
      change (no_percent ("%" +:+ suffix)) with false.
      by rewrite !andb_false_r, IH.
  - apply strip_scope_no_percent.
  - apply strip_scope_trailing.
  - apply strip_scope_idem_simple.
Qed.

Lemma strip_scope_spec_witness :
  strip_scope ("fe80::1" +:+ "%" +:+ "eth0") = "fe80::1"
  ∧ strip_scope "192.168.1.20" = "192.168.1.20"
  ∧ strip_scope (strip_scope "fe80::1%eth0") = strip_scope "fe80::1%eth0".
Proof.
  destruct strip_scope_spec as (_ & Hcut & Hnone & _ & Hidem).
  split; [|split].
  - apply (Hcut "fe80::1" "eth0"); reflexivity.
  - apply (Hnone "192.168.1.20"); reflexivity.
  - apply (Hidem "fe80::1%eth0"); vm_compute; lia.
Defined.

(** C3 as stated fails: normalising [a%b%c] once gives [a%b], and
    normalising that again gives [a]. *)
Lemma strip_scope_not_idempotent :
  strip_scope (strip_scope "a%b%c") ≠ strip_scope "a%b%c".
Proof. vm_compute. discriminate. Qed.

(** ** The merge *)

Section MergeFacts.

Lemma create_entry_key (incoming : Service) :
  service_key (create_entry incoming) = service_key incoming.
Proof. reflexivity. Qed.

Lemma merge_entry_key (service incoming : Service) :
  service_key (merge_entry service incoming) = service_key service.
Proof. reflexivity. Qed.

Lemma elem_of_set_from (x : string) (l : list string) :
  x ∈ set_from l ↔ x ∈ l.
Proof.
  induction l as [|y l IH]; [done|].
  cbn [set_from]. rewrite !elem_of_cons, list_elem_of_filter, IH.
  destruct (decide (x = y)); tauto.
Qed.

Lemma NoDup_set_from (l : list string) : NoDup (set_from l).
Proof.
  induction l as [|y l IH]; [constructor|].
  cbn [set_from]. constructor.
  - rewrite list_elem_of_filter. tauto.
  - by apply NoDup_filter.
Qed.

End MergeFacts.

(** ** The invariant is kept *)

Section Invariant.

Lemma elem_of_clearTimeout (t : Timeout) (h : nat) (q : list Timeout) :
  t ∈ clearTimeout h q ↔ t ∈ q ∧ t_handle t ≠ h.
Proof. unfold clearTimeout. rewrite list_elem_of_filter. tauto. Qed.

Lemma elem_of_clear_all (t : Timeout) (hs : list nat) (q : list Timeout) :
  t ∈ foldr clearTimeout q hs ↔ t ∈ q ∧ t_handle t ∉ hs.
Proof.
  induction hs as [|h hs IH]; cbn [foldr].
  - rewrite elem_of_nil. tauto.
  - rewrite elem_of_clearTimeout, IH, not_elem_of_cons. tauto.
Qed.

Lemma wf_new (handle : Z) : wf (new_browse handle).
Proof.
  split; cbn.
  - intros t Ht. by apply elem_of_nil in Ht.
  - intros k s Hs. by rewrite lookup_empty in Hs.
  - intros t Ht. by apply elem_of_nil in Ht.
  - intros t t' Ht. by apply elem_of_nil in Ht.
  - constructor.
  - done.
Qed.

Lemma merge_found_key (b : DnsSdBrowse) (incoming : Service) :
  wf b →
  service_key (merge_found (_services b !! service_key incoming) incoming)
  = service_key incoming.
Proof.
  intros Hwf.
  destruct (_services b !! service_key incoming) as [service|] eqn:Hs; cbn.
  - rewrite merge_entry_key. by apply (wf_keys b).
  - apply create_entry_key.
Qed.

(** No timeout of a well-formed session survives the cancellation of the
    one remembered for its key. *)
Lemma cleared_key (b : DnsSdBrowse) (key : string) (t : Timeout) :
  wf b →
  t ∈ match _pendingEmit b !! key with
      | Some h => clearTimeout h (timeouts b)
      | None => timeouts b
      end →
  t ∈ timeouts b ∧ t_key t ≠ key.
Proof.
  intros Hwf Ht.
  destruct (_pendingEmit b !! key) as [h|] eqn:Hp.
  - apply elem_of_clearTimeout in Ht as [Ht Hne]. split; [done|].
    intros <-. apply (wf_pending b Hwf) in Ht. congruence.
  - split; [done|]. intros <-. apply (wf_pending b Hwf) in Ht. congruence.
Qed.

Lemma wf_on_serviceFound (now : nat) (incoming : Service) (b : DnsSdBrowse) :
  wf b → _stopped b = false → wf (on_serviceFound now incoming b).
Proof.
  intros Hwf Hrun. split; cbn; [| | | | |by rewrite Hrun].
  - intros t [Ht | Ht]%elem_of_app.
    + apply (cleared_key b) in Ht as [Ht Hne]; [|done].
      rewrite lookup_insert_ne by done. by apply (wf_pending b).
    + apply list_elem_of_singleton in Ht as ->. cbn.
      by rewrite lookup_insert_eq.
  - intros k s. rewrite lookup_insert. case_decide as Hk.
    + intros [= <-]. subst k. by apply merge_found_key.
    + by apply (wf_keys b).
  - intros t [Ht | Ht]%elem_of_app.
    + apply (cleared_key b) in Ht as [Ht _]; [|done].
      apply (wf_fresh b Hwf) in Ht. lia.
    + apply list_elem_of_singleton in Ht as ->. cbn. lia.
  - intros t t' [Ht | Ht]%elem_of_app [Ht' | Ht']%elem_of_app Heq.
    + apply (cleared_key b) in Ht as [Ht _]; [|done].
      apply (cleared_key b) in Ht' as [Ht' _]; [|done].
      by apply (wf_unique b Hwf).
    + apply (cleared_key b) in Ht as [Ht _]; [|done].
      apply list_elem_of_singleton in Ht' as ->. cbn in Heq.
      apply (wf_fresh b Hwf) in Ht. lia.
    + apply (cleared_key b) in Ht' as [Ht' _]; [|done].
      apply list_elem_of_singleton in Ht as ->. cbn in Heq.
      apply (wf_fresh b Hwf) in Ht'. lia.
    + apply list_elem_of_singleton in Ht as ->.
      by apply list_elem_of_singleton in Ht' as ->.
  - apply NoDup_app. split; [|split; [|apply NoDup_singleton]].
    + destruct (_pendingEmit b !! service_key incoming);
        [apply NoDup_filter|]; apply (wf_nodup b Hwf).
    + intros t Ht Hnew. apply (cleared_key b) in Ht as [Ht _]; [|done].
      apply list_elem_of_singleton in Hnew as ->.
      apply (wf_fresh b Hwf) in Ht. cbn in Ht. lia.
Qed.

Lemma wf_on_serviceLost (lost : Service) (b : DnsSdBrowse) :
  wf b → _stopped b = false → wf (on_serviceLost lost b).1.
Proof.
  intros Hwf Hrun. unfold on_serviceLost.
  destruct (_services b !! service_key lost) as [service|] eqn:Hs; [|done].
  assert (∀ t,
    t ∈ (match _pendingEmit b !! service_key lost with
         | Some timeout =>
             (clearTimeout timeout (timeouts b),
              delete (service_key lost) (_pendingEmit b))
         | None => (timeouts b, _pendingEmit b)
         end).1 →
    t ∈ timeouts b ∧ t_key t ≠ service_key lost) as Hsub.
  { intros t Ht. apply cleared_key; [done|].
    by destruct (_pendingEmit b !! service_key lost). }
  split; cbn; [| | | | |by rewrite Hrun].
  - intros t [Hin Hne]%Hsub.
    destruct (_pendingEmit b !! service_key lost); cbn.
    + rewrite lookup_delete_ne by done. by apply (wf_pending b).
    + by apply (wf_pending b).
  - intros k s. rewrite lookup_delete. case_decide; [done|].
    by apply (wf_keys b).
  - intros t [Hin _]%Hsub. by apply (wf_fresh b).
  - intros t t' [Hin _]%Hsub [Hin' _]%Hsub. by apply (wf_unique b).
  - destruct (_pendingEmit b !! service_key lost); cbn;
      [apply NoDup_filter|]; apply (wf_nodup b Hwf).
Qed.

Lemma fire_live (h : nat) (b : DnsSdBrowse) (i : nat) (t : Timeout) :
  list_find (λ t, t_handle t = h) (timeouts b) = Some (i, t) →
  t ∈ timeouts b ∧ t_handle t = h.
Proof.
  intros (Hi & Hh & _)%list_find_Some. split; [|done].
  by eapply list_elem_of_lookup_2.
Qed.

(** In a well-formed session a live timeout is found by its handle. *)
Lemma fire_finds (b : DnsSdBrowse) (t : Timeout) :
  wf b → t ∈ timeouts b →
  ∃ i, list_find (λ t', t_handle t' = t_handle t) (timeouts b) = Some (i, t).
Proof.
  intros Hwf Ht.
  destruct (list_find_elem_of (λ t', t_handle t' = t_handle t)
              (timeouts b) t Ht eq_refl) as [[i t'] Hfind].
  exists i. rewrite Hfind. do 2 f_equal.
  apply fire_live in Hfind as [Hin Hh]. by apply (wf_unique b Hwf).
Qed.

(** A debounce expiry changes nothing but the set of remembered timeouts. *)
Lemma debounce_expired_state (key : string) (b : DnsSdBrowse) :
  (debounce_expired key b).1
  = {| _handle := _handle b; _stopped := _stopped b;
       _services := _services b;
       _pendingEmit := delete key (_pendingEmit b);
       timeouts := timeouts b;
       next_timeout := next_timeout b;
       stopBrowse_calls := stopBrowse_calls b |}.
Proof.
  unfold debounce_expired. cbn.
  destruct (_services b !! key); [|done].
  by destruct (negb (_stopped b) && _).
Qed.

Lemma wf_fire (h : nat) (b : DnsSdBrowse) : wf b → wf (fire h b).1.
Proof.
  intros Hwf. unfold fire.
  destruct (list_find _ (timeouts b)) as [[i t]|] eqn:Hfind; [|exact Hwf].
  apply fire_live in Hfind as [Hin Hh].
  rewrite debounce_expired_state. split; cbn;
    [| | | |apply NoDup_filter, (wf_nodup b Hwf)
     |intros [Hq _]%(wf_stopped b Hwf); rewrite Hq in Hin;
      by apply elem_of_nil in Hin].
  - intros t' [Hin' Hne]%elem_of_clearTimeout.
    rewrite lookup_delete_ne; [by apply (wf_pending b)|].
    intros Hk. apply (wf_pending b Hwf) in Hin, Hin'.
    rewrite Hk in Hin. congruence.
  - apply (wf_keys b Hwf).
  - intros t' [Hin' _]%elem_of_clearTimeout. by apply (wf_fresh b).
  - intros t1 t2 [H1 _]%elem_of_clearTimeout [H2 _]%elem_of_clearTimeout.
    by apply (wf_unique b).
Qed.

Lemma wf_stop (b : DnsSdBrowse) : wf b → wf (stop b).
Proof.
  intros Hwf. unfold stop. destruct (_stopped b); [done|].
  assert (∀ t, t ∉ foldr clearTimeout (timeouts b)
                     (map_to_list (_pendingEmit b)).*2) as Hnone.
  { intros t [Hin Hnot]%elem_of_clear_all. apply Hnot.
    apply (wf_pending b Hwf) in Hin.
    apply list_elem_of_fmap. exists (t_key t, t_handle t). split; [done|].
    by apply elem_of_map_to_list. }
  split; cbn.
  - intros t Ht. by apply Hnone in Ht.
  - apply (wf_keys b Hwf).
  - intros t Ht. by apply Hnone in Ht.
  - intros t t' Ht. by apply Hnone in Ht.
  - rewrite (elem_of_nil_inv _ Hnone). constructor.
  - intros _. split; [by apply elem_of_nil_inv|done].
Qed.

Lemma wf_step (a : Action) (b : DnsSdBrowse) : wf b → wf (step a b).1.
Proof.
  intros Hwf. destruct a as [now event| h |]; cbn.
  - unfold browse_callback. destruct (_stopped b) eqn:Hs; [done|].
    destruct event; cbn; try done.
    + by apply wf_on_serviceFound.
    + by apply wf_on_serviceLost.
  - by apply wf_fire.
  - by apply wf_stop.
Qed.

Lemma exec_cons (a : Action) (acts : list Action) (b : DnsSdBrowse) :
  exec (a :: acts) b
  = ((exec acts (step a b).1).1, (step a b).2 ++ (exec acts (step a b).1).2).
Proof.
  simpl. destruct (step a b) as [b1 out1].
  simpl. by destruct (exec acts b1) as [b2 out2].
Qed.

Lemma exec_app (acts1 acts2 : list Action) (b : DnsSdBrowse) :
  exec (acts1 ++ acts2) b
  = ((exec acts2 (exec acts1 b).1).1,
     (exec acts1 b).2 ++ (exec acts2 (exec acts1 b).1).2).
Proof.
  revert b. induction acts1 as [|a acts1 IH]; intros b.
  - cbn. by destruct (exec acts2 b).
  - rewrite <- app_comm_cons, !exec_cons, IH. cbn. by rewrite app_assoc.
Qed.

Lemma wf_exec (acts : list Action) (b : DnsSdBrowse) :
  wf b → wf (exec acts b).1.
Proof.
  revert b. induction acts as [|a acts IH]; intros b Hwf; [done|].
  rewrite exec_cons. cbn. by apply IH, wf_step.
Qed.

(** Every state a session can reach from its construction is well-formed. *)
Lemma wf_reachable (handle : Z) (acts : list Action) :
  wf (exec acts (new_browse handle)).1.
Proof. apply wf_exec, wf_new. Qed.

(** After [stop] no timeout of a well-formed session is live. *)
Lemma stop_clears (b : DnsSdBrowse) :
  wf b → _stopped b = false → timeouts (stop b) = [].
Proof.
  intros Hwf Hrun. unfold stop. rewrite Hrun. cbn.
  apply elem_of_nil_inv. intros t [Hin Hnot]%elem_of_clear_all. apply Hnot.
  apply (wf_pending b Hwf) in Hin.
  apply list_elem_of_fmap. exists (t_key t, t_handle t). split; [done|].
  by apply elem_of_map_to_list.
Qed.

End Invariant.

(** ** Merging into an existing entry *)

(** C7: a [Found] event for a key the table holds overwrites [hostName]
    and [port] with the incoming values, merges [txt] key by key with the
    incoming keys winning and the other keys surviving, and overwrites
    [ttl] only when the incoming one is present and not zero. *)
Theorem found_merge_fields (now : nat) (b : DnsSdBrowse)
    (existing incoming : Service) :
  _stopped b = false →
  _services b !! service_key incoming = Some existing →
  let merged := merge_entry existing incoming in
  _services (browse_callback now (RawFound incoming) b).1
    !! service_key incoming = Some merged
  ∧ hostName merged = hostName incoming
  ∧ port merged = port incoming
  ∧ (∀ k, txt_lookup merged k
          = match txt_lookup incoming k with
            | Some v => Some v
            | None => txt_lookup existing k
            end)
  ∧ ttl merged
    = match ttl incoming with
      | Some z => if (z =? 0)%Z then ttl existing else Some z
      | None => ttl existing
      end
  ∧ (txt existing = Some {[ "a" := "1" ]} →
     txt incoming = Some (<[ "a" := "2" ]> {[ "b" := "3" ]}) →
     txt merged = Some (<[ "a" := "2" ]> {[ "b" := "3" ]})).
Proof.
  intros Hrun Hexisting merged.
  split; [|split; [done|split; [done|split; [|split]]]].
  - unfold browse_callback. rewrite Hrun. cbn.
    by rewrite lookup_insert_eq, Hexisting.
  - intros k. unfold txt_lookup, merged. cbn.
    destruct (txt incoming) as [t|]; cbn; [|done].
    unfold spread_txt. rewrite lookup_union.
    destruct (t !! k) as [v|] eqn:Hk.
    + by destruct (default ∅ (txt existing) !! k).
    + rewrite (left_id_L None _).
      destruct (txt existing); cbn; [done|]. by rewrite lookup_empty.
  - unfold merged. cbn. destruct (ttl incoming) as [z|]; cbn; [|done].
    by destruct (z =? 0)%Z.
  - intros He Hi. unfold merged. cbn. rewrite He, Hi.
    by vm_compute.
Qed.

Lemma found_merge_fields_witness :
  let existing := with_txt {[ "a" := "1" ]} (printer ["10.0.0.1"]) in
  let incoming :=
    with_txt (<[ "a" := "2" ]> {[ "b" := "3" ]}) (printer ["10.0.0.2"]) in
  let b := (browse_callback 0 (RawFound existing) (new_browse 1)).1 in
  txt (merge_entry (create_entry existing) incoming)
  = Some (<[ "a" := "2" ]> {[ "b" := "3" ]}).
Proof.
  intros existing incoming b.
  apply (found_merge_fields 50 b (create_entry existing) incoming);
    reflexivity.
Defined.

(** ** Addresses of a merged entry *)

(** C1, at the input where the code departs from it: the same scoped
    address reported twice for one identity.  The first event leaves
    [fe80::1] in the table; the second puts it there twice, since the
    values are deduplicated before the scope is stripped, and that list is
    what [serviceFound] carries. *)
Theorem repeated_address_duplicates :
  let found := RawFound (printer ["fe80::1%eth0"]) in
  let key := service_key (printer []) in
  let once := (exec [Raw 0 found] (new_browse 1)).1 in
  let twice := (exec [Raw 0 found; Raw 10 found] (new_browse 1)).1 in
  addresses <$> _services once !! key = Some ["fe80::1"]
  ∧ addresses <$> _services twice !! key = Some ["fe80::1"; "fe80::1"]
  ∧ found_in
      (run_until 1000 [(0, InRaw found); (10, InRaw found)] (new_browse 1)).2
    = [(110, printer ["fe80::1"; "fe80::1"])].
Proof. by vm_compute. Qed.

(** ** What a stopped or running session emits *)

Section Emissions.

Lemma debounce_expired_out (key : string) (b : DnsSdBrowse) :
  (debounce_expired key b).2
  = match _services b !! key with
    | Some svc =>
        if negb (_stopped b) && (0 <? length (addresses svc))
        then [serviceFound svc] else []
    | None => []
    end.
Proof.
  unfold debounce_expired. cbn.
  destruct (_services b !! key); [|done].
  by destruct (negb (_stopped b) && _).
Qed.

Lemma fire_found_has_address (h : nat) (b : DnsSdBrowse) :
  Forall found_has_address (fire h b).2.
Proof.
  unfold fire. destruct (list_find _ (timeouts b)) as [[i t]|]; [|done].
  rewrite debounce_expired_out. cbn.
  destruct (_services b !! t_key t) as [svc|]; [|done].
  destruct (negb (_stopped b)); cbn; [|done].
  destruct (addresses svc) eqn:Ha; cbn; [done|].
  constructor; [|done]. cbn. by rewrite Ha.
Qed.

Lemma step_found_has_address (a : Action) (b : DnsSdBrowse) :
  Forall found_has_address (step a b).2.
Proof.
  destruct a as [now event| h |]; cbn; [|apply fire_found_has_address|done].
  unfold browse_callback. destruct (_stopped b); [done|].
  destruct event; cbn; try done.
  - unfold on_serviceLost. destruct (_services b !! _); [|done].
    by repeat constructor.
  - by repeat constructor.
Qed.

Lemma exec_found_has_address (acts : list Action) (b : DnsSdBrowse) :
  Forall found_has_address (exec acts b).2.
Proof.
  revert b. induction acts as [|a acts IH]; intros b; [done|].
  rewrite exec_cons. cbn. apply Forall_app. split; [|apply IH].
  apply step_found_has_address.
Qed.

(** Timed runs are particular interleavings of actions. *)
Lemma fire_all_exec (ts : list Timeout) (b : DnsSdBrowse) :
  ∃ acts, exec acts b = ((fire_all ts b).1, (fire_all ts b).2.*2).
Proof.
  revert b. induction ts as [|t ts IH]; intros b; [by exists []|].
  cbn [fire_all]. destruct (fire (t_handle t) b) as [b1 out] eqn:Hfire.
  destruct (IH b1) as [acts Hacts].
  destruct (fire_all ts b1) as [b2 log] eqn:Hall.
  exists (Fire (t_handle t) :: acts).
  rewrite exec_cons. cbn [step]. rewrite Hfire. cbn [fst snd].
  rewrite Hacts. cbn [fst snd]. f_equal.
  rewrite fmap_app. f_equal. rewrite <- list_fmap_compose.
  by rewrite list_fmap_id.
Qed.

Lemma timed_step_exec (now : nat) (i : Input) (b : DnsSdBrowse) :
  ∃ acts, exec acts b = ((timed_step now i b).1, (timed_step now i b).2.*2).
Proof.
  unfold timed_step, advance.
  destruct (fire_all_exec (filter (λ t, is_due now t = true) (timeouts b)) b)
    as [acts Hacts].
  destruct (fire_all _ b) as [b1 log1].
  destruct (step (input_action now i) b1) as [b2 out] eqn:Hstep.
  exists (acts ++ [input_action now i]).
  rewrite exec_app, Hacts. cbn [fst snd]. rewrite exec_cons, Hstep.
  cbn. rewrite app_nil_r, fmap_app. do 2 f_equal.
  rewrite <- list_fmap_compose. by rewrite list_fmap_id.
Qed.

Lemma run_exec (sched : list (nat * Input)) (b : DnsSdBrowse) :
  ∃ acts, exec acts b = ((run sched b).1, (run sched b).2.*2).
Proof.
  revert b. induction sched as [|[now i] sched IH]; intros b; [by exists []|].
  cbn [run]. destruct (timed_step_exec now i b) as [acts1 H1].
  destruct (timed_step now i b) as [b1 log1].
  destruct (IH b1) as [acts2 H2].
  destruct (run sched b1) as [b2 log2].
  exists (acts1 ++ acts2). rewrite exec_app, H1. cbn [fst snd].
  rewrite H2. cbn. by rewrite fmap_app.
Qed.

Lemma run_until_exec (horizon : nat) (sched : list (nat * Input))
    (b : DnsSdBrowse) :
  ∃ acts,
    exec acts b
    = ((run_until horizon sched b).1, (run_until horizon sched b).2.*2).
Proof.
  unfold run_until. destruct (run_exec sched b) as [acts1 H1].
  destruct (run sched b) as [b1 log1]. unfold advance.
  destruct (fire_all_exec
              (filter (λ t, is_due horizon t = true) (timeouts b1)) b1)
    as [acts2 H2].
  destruct (fire_all _ b1) as [b2 log2].
  exists (acts1 ++ acts2). rewrite exec_app, H1. cbn [fst snd].
  rewrite H2. cbn. by rewrite fmap_app.
Qed.

Lemma stopped_step (a : Action) (b : DnsSdBrowse) :
  _stopped b = true → _stopped (step a b).1 = true ∧ (step a b).2 = [].
Proof.
  intros Hs. destruct a as [now event| h |]; cbn.
  - unfold browse_callback. by rewrite Hs.
  - unfold fire. destruct (list_find _ (timeouts b)) as [[i t]|]; [|done].
    rewrite debounce_expired_state, debounce_expired_out. cbn.
    rewrite Hs. cbn. by destruct (_services b !! t_key t).
  - unfold stop. by rewrite Hs.
Qed.

(** A stopped session stays stopped and silent, whatever is still queued. *)
Lemma stopped_exec (acts : list Action) (b : DnsSdBrowse) :
  _stopped b = true → _stopped (exec acts b).1 = true ∧ (exec acts b).2 = [].
Proof.
  revert b. induction acts as [|a acts IH]; intros b Hs; [done|].
  rewrite exec_cons. cbn. destruct (stopped_step a b Hs) as [Hs1 ->].
  by apply IH.
Qed.

End Emissions.

(** C2, as the code has it: no [serviceFound] notification ever carries
    an empty address list; a debounce expiry for an entry whose merged
    address list is empty emits nothing and leaves the table as it is.
    A [serviceLost] notification carries the last aggregate whatever its
    addresses. *)
Theorem found_never_empty (b : DnsSdBrowse) (acts : list Action)
    (horizon : nat) (sched : list (nat * Input)) (h : nat) :
  Forall found_has_address (exec acts b).2
  ∧ Forall found_has_address (run_until horizon sched b).2.*2
  ∧ _services (fire h b).1 = _services b
  ∧ (∀ i t svc,
       list_find (λ t, t_handle t = h) (timeouts b) = Some (i, t) →
       _services b !! t_key t = Some svc →
       addresses svc = [] →
       (fire h b).2 = []).
Proof.
  split; [apply exec_found_has_address|]. split; [|split].
  - destruct (run_until_exec horizon sched b) as [acts' Hacts].
    pose proof (exec_found_has_address acts' b) as Hall.
    by rewrite Hacts in Hall.
  - unfold fire. destruct (list_find _ (timeouts b)) as [[i t]|]; [|done].
    by rewrite debounce_expired_state.
  - intros i t svc Hfind Hsvc Hempty. unfold fire. rewrite Hfind.
    rewrite debounce_expired_out. cbn. rewrite Hsvc, Hempty. cbn.
    by rewrite andb_false_r.
Qed.

Lemma found_never_empty_witness :
  let b := (exec [Raw 0 (RawFound (printer []))] (new_browse 1)).1 in
  _services (fire 1 b).1 = _services b ∧ (fire 1 b).2 = [].
Proof.
  intros b.
  destruct (found_never_empty b [] 0 [] 1) as (_ & _ & Hkeep & Hquiet).
  split; [exact Hkeep|].
  apply (Hquiet 0 (mkTimeout 1 (service_key (printer [])) 100) (printer []));
    reflexivity.
Defined.

(** C2 as stated fails for [serviceLost]: an entry that never had an
    address is delivered, with its empty address list, when it is lost. *)
Lemma lost_delivers_empty_addresses :
  let log :=
    (run_until 1000
       [(0, InRaw (RawFound (printer []))); (10, InRaw (RawLost (printer [])))]
       (new_browse 1)).2 in
  log = [(10, serviceLost (printer []))] ∧ addresses (printer []) = [].
Proof. by vm_compute. Qed.

(** ** Stopping *)

Section Stopping.

Lemma step_frame (a : Action) (b : DnsSdBrowse) :
  _handle (step a b).1 = _handle b
  ∧ _stopped (step a b).1 = _stopped b || is_Stop a
  ∧ stopBrowse_calls (step a b).1
    = stopBrowse_calls b
      ++ (if negb (_stopped b) && is_Stop a then [_handle b] else []).
Proof.
  destruct a as [now event| h |]; cbn [step is_Stop].
  - rewrite orb_false_r, andb_false_r, app_nil_r.
    unfold browse_callback. destruct (_stopped b) eqn:Hs; [done|].
    destruct event; cbn; try done.
    unfold on_serviceLost. by destruct (_services b !! _).
  - rewrite orb_false_r, andb_false_r, app_nil_r.
    unfold fire. destruct (list_find _ (timeouts b)) as [[i t]|]; [|done].
    by rewrite debounce_expired_state.
  - unfold stop. destruct (_stopped b) eqn:Hs; cbn.
    + by rewrite Hs, app_nil_r.
    + done.
Qed.

Lemma exec_frame (acts : list Action) (b : DnsSdBrowse) :
  _handle (exec acts b).1 = _handle b
  ∧ _stopped (exec acts b).1 = _stopped b || existsb is_Stop acts
  ∧ stopBrowse_calls (exec acts b).1
    = stopBrowse_calls b
      ++ (if negb (_stopped b) && existsb is_Stop acts
          then [_handle b] else []).
Proof.
  revert b. induction acts as [|a acts IH]; intros b.
  - cbn. by rewrite orb_false_r, andb_false_r, app_nil_r.
  - rewrite exec_cons. cbn [fst existsb].
    destruct (IH (step a b).1) as (Hh & Hs & Hc).
    destruct (step_frame a b) as (Hh1 & Hs1 & Hc1).
    rewrite Hh, Hs, Hc, Hh1, Hs1, Hc1, <- app_assoc.
    split; [done|]. split; [by rewrite orb_assoc|]. f_equal.
    destruct (_stopped b), (is_Stop a), (existsb is_Stop acts); done.
Qed.

Lemma adv_exec_cons (act : AdvAction) (acts : list AdvAction)
    (a : DnsSdAdvertisement) :
  adv_exec (act :: acts) a
  = ((adv_exec acts (adv_step act a).1).1,
     (adv_step act a).2 ++ (adv_exec acts (adv_step act a).1).2).
Proof.
  simpl. destruct (adv_step act a) as [a1 out1].
  simpl. by destruct (adv_exec acts a1) as [a2 out2].
Qed.

Lemma adv_exec_frame (acts : list AdvAction) (a : DnsSdAdvertisement) :
  adv_handle (adv_exec acts a).1 = adv_handle a
  ∧ adv_stopped (adv_exec acts a).1 = adv_stopped a || existsb is_AdvStop acts
  ∧ stopAdvertise_calls (adv_exec acts a).1
    = stopAdvertise_calls a
      ++ (if negb (adv_stopped a) && existsb is_AdvStop acts
          then [adv_handle a] else []).
Proof.
  revert a. induction acts as [|act acts IH]; intros a.
  - cbn. by rewrite orb_false_r, andb_false_r, app_nil_r.
  - rewrite adv_exec_cons. cbn [fst existsb].
    destruct (IH (adv_step act a).1) as (Hh & Hs & Hc).
    rewrite Hh, Hs, Hc. clear IH Hh Hs Hc.
    destruct act as [event|]; cbn; [done|].
    unfold adv_stop. destruct (adv_stopped a) eqn:Hst; cbn.
    + by rewrite Hst.
    + by rewrite <- app_assoc.
Qed.

End Stopping.

(** C8: [stop()] of either session is a total function of the session,
    a second call changes nothing, and however the calls are interleaved
    with other activity the backend is told to stop exactly once, by the
    first call, with the handle of the session. *)
Theorem stop_idempotent (b : DnsSdBrowse) (a : DnsSdAdvertisement)
    (handle : Z) (acts : list Action) (adv_acts : list AdvAction) :
  stop (stop b) = stop b
  ∧ adv_stop (adv_stop a) = adv_stop a
  ∧ stopBrowse_calls (exec acts (new_browse handle)).1
    = (if existsb is_Stop acts then [handle] else [])
  ∧ stopAdvertise_calls (adv_exec adv_acts (new_advertisement handle)).1
    = (if existsb is_AdvStop adv_acts then [handle] else []).
Proof.
  split; [|split; [|split]].
  - unfold stop. destruct (_stopped b) eqn:Hs; [by rewrite Hs|done].
  - unfold adv_stop. destruct (adv_stopped a) eqn:Hs; [by rewrite Hs|done].
  - by destruct (exec_frame acts (new_browse handle)) as (_ & _ & ->).
  - by destruct (adv_exec_frame adv_acts (new_advertisement handle))
      as (_ & _ & ->).
Qed.

(** C5: once [stop()] has been called on a session, however it got
    there, the session is marked stopped, no timeout is live or
    remembered, and whatever happens next (raw events, stale timeouts,
    further stops) emits nothing and leaves the session as it is. *)
Theorem stop_silences (handle : Z) (pre post : list Action)
    (horizon : nat) (sched : list (nat * Input)) :
  let s := stop (exec pre (new_browse handle)).1 in
  _stopped s = true
  ∧ timeouts s = []
  ∧ _pendingEmit s = ∅
  ∧ exec post s = (s, [])
  ∧ (run_until horizon sched s).2 = [].
Proof.
  intros s.
  pose proof (wf_stop _ (wf_reachable handle pre)) as Hwf. fold s in Hwf.
  assert (_stopped s = true) as Hs.
  { unfold s, stop.
    by destruct (_stopped (exec pre (new_browse handle)).1) eqn:E. }
  destruct (wf_stopped s Hwf Hs) as [Hq Hp].
  split; [done|]. split; [done|]. split; [done|].
  assert (∀ acts, exec acts s = (s, [])) as Hexec.
  { induction acts as [|a acts IH]; [done|].
    rewrite exec_cons.
    assert (step a s = (s, [])) as ->; [|cbn; by rewrite IH].
    destruct a as [now event| h |]; cbn.
    - unfold browse_callback. by rewrite Hs.
    - unfold fire. by rewrite Hq.
    - unfold stop. by rewrite Hs. }
  split; [apply Hexec|].
  destruct (run_until_exec horizon sched s) as [acts Hacts].
  rewrite Hexec in Hacts. injection Hacts as _ Hlog.
  symmetry in Hlog. by apply fmap_nil_inv in Hlog.
Qed.

(** ** The advertise session *)

(** C9: while an advertise session is not stopped every raw [registered]
    event is forwarded with the name the backend gave and every raw
    [error] event as an error notification, one notification per event
    and in the order of arrival, nothing being merged or delayed; after
    [stop()] nothing is forwarded any more. *)
Theorem advertise_relays (handle : Z) (events : list AdvertiseEvent)
    (post : list AdvAction) :
  (adv_exec (AdvRaw <$> events) (new_advertisement handle)).2
  = events ≫= forwarded
  ∧ (adv_exec ((AdvRaw <$> events) ++ AdvStop :: post)
       (new_advertisement handle)).2
    = events ≫= forwarded
  ∧ (∀ name, forwarded (RawRegistered name) = [registered name])
  ∧ (∀ message, forwarded (RawAdvError message) = [adv_error message]).
Proof.
  assert (∀ acts a, adv_stopped a = true → (adv_exec acts a).2 = [])
    as Hsilent.
  { induction acts as [|act acts IH]; intros a Hs; [done|].
    rewrite adv_exec_cons. cbn.
    destruct act as [event|]; cbn.
    - unfold advertise_callback. rewrite Hs. by apply IH.
    - apply IH. unfold adv_stop. by rewrite Hs. }
  assert (∀ rest a, adv_stopped a = false →
            (adv_exec ((AdvRaw <$> events) ++ rest) a).2
            = (events ≫= forwarded) ++ (adv_exec rest a).2) as Hrelay.
  { intros rest. induction events as [|event events IH]; intros a Hs; [done|].
    rewrite fmap_cons, <- app_comm_cons, adv_exec_cons. cbn [adv_step fst snd].
    rewrite (IH a Hs), bind_cons, <- app_assoc. f_equal.
    unfold advertise_callback. rewrite Hs. by destruct event. }
  split; [|split; [|done]].
  - rewrite <- (app_nil_r (AdvRaw <$> events)), Hrelay by done.
    cbn. by rewrite app_nil_r.
  - rewrite Hrelay by done. rewrite adv_exec_cons. cbn.
    rewrite (Hsilent post); [by rewrite app_nil_r|done].
Qed.

(** ** Timeouts that fall due *)

(** Reduce the projections of a session that is written out. *)
Ltac fields :=
  cbn [fst snd _handle _stopped _services _pendingEmit timeouts
       next_timeout stopBrowse_calls negb andb].

Section Expiry.

Lemma same_key_same_timeout (b : DnsSdBrowse) (t t' : Timeout) :
  wf b → t ∈ timeouts b → t' ∈ timeouts b → t_key t = t_key t' → t = t'.
Proof.
  intros Hwf Ht Ht' Hk. apply (wf_unique b Hwf); [done..|].
  apply (wf_pending b Hwf) in Ht, Ht'. rewrite Hk in Ht. congruence.
Qed.

(** Firing a live timeout of a running session. *)
Lemma fire_running (b : DnsSdBrowse) (t : Timeout) :
  wf b → _stopped b = false → t ∈ timeouts b →
  let r := fire (t_handle t) b in
  _stopped r.1 = false
  ∧ _services r.1 = _services b
  ∧ (∀ t', t' ∈ timeouts r.1 ↔ t' ∈ timeouts b ∧ t' ≠ t)
  ∧ ((λ n, (t_due t, n)) <$> r.2) = expiry_log b t.
Proof.
  intros Hwf Hrun Ht r. unfold r, fire.
  destruct (fire_finds b t Hwf Ht) as [i ->].
  rewrite debounce_expired_state, debounce_expired_out. fields.
  split; [done|]. split; [done|]. split.
  - intros t'. rewrite elem_of_clearTimeout. split.
    + intros [Hin Hne]. split; [done|]. by intros ->.
    + intros [Hin Hne]. split; [done|]. intros Hh. apply Hne.
      by apply (wf_unique b Hwf).
  - unfold expiry_log. rewrite Hrun. fields.
    destruct (_services b !! t_key t) as [svc|]; [|done].
    by destruct (0 <? length (addresses svc)).
Qed.

(** The timeouts [ts], all live and distinct, fire one after the other:
    the table is untouched, they leave the queue, and each emits what its
    own expiry emits. *)
Lemma fire_all_spec (ts : list Timeout) (b : DnsSdBrowse) :
  wf b → _stopped b = false → NoDup ts →
  (∀ t, t ∈ ts → t ∈ timeouts b) →
  let r := fire_all ts b in
  wf r.1
  ∧ _stopped r.1 = false
  ∧ _services r.1 = _services b
  ∧ (∀ t, t ∈ timeouts r.1 ↔ t ∈ timeouts b ∧ t ∉ ts)
  ∧ r.2 = ts ≫= expiry_log b.
Proof.
  revert b. induction ts as [|t ts IH]; intros b Hwf Hrun Hnd Hlive.
  - cbn. split; [done|]. split; [done|]. split; [done|]. split; [|done].
    intros t. rewrite elem_of_nil. tauto.
  - apply NoDup_cons in Hnd as [Hnotin Hnd].
    pose proof (Hlive t (list_elem_of_here _ _)) as Ht.
    destruct (fire_running b t Hwf Hrun Ht) as (Hrun1 & Hsvc1 & Hq1 & Hout1).
    pose proof (wf_fire (t_handle t) b Hwf) as Hwf1.
    cbn [fire_all]. destruct (fire (t_handle t) b) as [b1 out] eqn:Hfire.
    cbn [fst snd] in *.
    destruct (IH b1 Hwf1 Hrun1 Hnd) as (Hwf2 & Hrun2 & Hsvc2 & Hq2 & Hlog2).
    { intros t' Hin'. apply Hq1. split.
      - apply Hlive. by apply list_elem_of_further.
      - by intros ->. }
    destruct (fire_all ts b1) as [b2 log] eqn:Hall. cbn [fst snd] in *.
    split; [done|]. split; [done|]. split; [congruence|]. split.
    + intros t'. rewrite Hq2, Hq1, not_elem_of_cons. tauto.
    + rewrite bind_cons, Hout1, Hlog2. f_equal.
      unfold expiry_log. by rewrite Hsvc1.
Qed.

Lemma advance_spec (now : nat) (b : DnsSdBrowse) :
  wf b → _stopped b = false →
  let r := advance now b in
  wf r.1
  ∧ _stopped r.1 = false
  ∧ _services r.1 = _services b
  ∧ (∀ t, t ∈ timeouts r.1 ↔ t ∈ timeouts b ∧ now < t_due t)
  ∧ r.2 = filter (λ t, is_due now t = true) (timeouts b) ≫= expiry_log b.
Proof.
  intros Hwf Hrun r. unfold r, advance.
  destruct (fire_all_spec (filter (λ t, is_due now t = true) (timeouts b)) b)
    as (Hwf1 & Hrun1 & Hsvc1 & Hq1 & Hlog1); [done | done | | |].
  - apply NoDup_filter, (wf_nodup b Hwf).
  - by intros t [_ Ht]%list_elem_of_filter.
  - split; [done|]. split; [done|]. split; [done|]. split; [|done].
    intros t. rewrite Hq1, list_elem_of_filter. unfold is_due.
    destruct (Nat.leb_spec (t_due t) now); split.
    + intros [Hin Hnot]. exfalso. by apply Hnot.
    + intros [_ Hlt]. lia.
    + tauto.
    + intros [Hin _]. split; [done|]. by intros [[=] _].
Qed.

(** The notifications about [key] among those of expiring timeouts. *)
Lemma expiry_other (b : DnsSdBrowse) (key : string) (ts : list Timeout) :
  wf b →
  (∀ t, t ∈ ts → t_key t ≠ key) →
  about key (found_in (ts ≫= expiry_log b)) = []
  ∧ lost_in (ts ≫= expiry_log b) = [].
Proof.
  intros Hwf. induction ts as [|t ts IH]; intros Hne; [done|].
  rewrite bind_cons. unfold found_in, lost_in, about in *.
  rewrite !omap_app, filter_app.
  destruct IH as [-> ->].
  { intros t' Hin. apply Hne. by apply list_elem_of_further. }
  rewrite !app_nil_r. unfold expiry_log.
  destruct (_services b !! t_key t) as [svc|] eqn:Hsvc; [|done].
  destruct (0 <? length (addresses svc)); [|done].
  cbn. split; [|done]. rewrite decide_False; [done|].
  rewrite (wf_keys b Hwf _ _ Hsvc). apply Hne, list_elem_of_here.
Qed.

End Expiry.

(** ** Bursts *)

Section Bursts.

Lemma found_pending (now : nat) (incoming : Service) (b : DnsSdBrowse) :
  wf b → _stopped b = false →
  pending_for (service_key incoming) (now + DEBOUNCE_TIMEOUT)
    (merge_found (_services b !! service_key incoming) incoming)
    (on_serviceFound now incoming b).
Proof.
  intros Hwf Hrun. split; [by apply wf_on_serviceFound|].
  split; [done|]. split.
  - cbn. by rewrite lookup_insert_eq.
  - exists (next_timeout b). cbn. apply elem_of_app. right.
    apply list_elem_of_here.
Qed.

(** Before the timeout of [key] is due, the passing of time emits nothing
    about [key]. *)
Lemma advance_early (now : nat) (key : string) (b : DnsSdBrowse) :
  wf b → _stopped b = false →
  (∀ t, t ∈ timeouts b → t_key t = key → now < t_due t) →
  let r := advance now b in
  wf r.1 ∧ _stopped r.1 = false ∧ _services r.1 = _services b
  ∧ (∀ t, t ∈ timeouts r.1 → t ∈ timeouts b)
  ∧ about key (found_in r.2) = [] ∧ lost_in r.2 = [].
Proof.
  intros Hwf Hrun Hlater r.
  destruct (advance_spec now b Hwf Hrun) as (Hwf1 & Hrun1 & Hsvc1 & Hq1 & Hlog).
  fold r in Hwf1, Hrun1, Hsvc1, Hq1, Hlog.
  split; [done|]. split; [done|]. split; [done|]. split.
  - intros t Ht. by apply Hq1 in Ht as [Ht _].
  - rewrite Hlog. apply expiry_other; [done|].
    intros t [Hdue Hin]%list_elem_of_filter Hk.
    specialize (Hlater t Hin Hk). unfold is_due in Hdue.
    apply Nat.leb_le in Hdue. lia.
Qed.

(** Once it is due, it emits the entry, if the entry has an address. *)
Lemma advance_due (now : nat) (key : string) (due : nat) (agg : Service)
    (b : DnsSdBrowse) :
  pending_for key due agg b → due ≤ now →
  let r := advance now b in
  about key (found_in r.2)
  = (if 0 <? length (addresses agg) then [(due, agg)] else [])
  ∧ lost_in r.2 = [].
Proof.
  intros (Hwf & Hrun & Hagg & h & Hin) Hdue r.
  destruct (advance_spec now b Hwf Hrun) as (_ & _ & _ & _ & Hlog).
  fold r in Hlog. rewrite Hlog. clear Hlog r.
  set (tk := mkTimeout h key due) in *.
  assert (tk ∈ filter (λ t, is_due now t = true) (timeouts b)) as Hdue_in.
  { apply list_elem_of_filter. split; [|done].
    unfold is_due. cbn. by apply Nat.leb_le. }
  apply list_elem_of_split in Hdue_in as (l1 & l2 & Hsplit).
  assert (∀ t, t ∈ l1 ++ l2 → t_key t ≠ key) as Hothers.
  { intros t Ht Hk.
    assert (NoDup (l1 ++ tk :: l2)) as Hnd.
    { rewrite <- Hsplit. apply NoDup_filter, (wf_nodup b Hwf). }
    assert (t ∈ timeouts b) as Ht_in.
    { assert (t ∈ l1 ++ tk :: l2) as Ht'.
      { rewrite elem_of_app, elem_of_cons.
        apply elem_of_app in Ht. tauto. }
      rewrite <- Hsplit in Ht'. by apply list_elem_of_filter in Ht' as [_ ?]. }
    assert (t = tk) as -> by by apply (same_key_same_timeout b).
    apply NoDup_app in Hnd as (_ & Hdisj & Hnd2).
    apply NoDup_cons in Hnd2 as [Hnot2 _].
    apply elem_of_app in Ht as [Ht | Ht]; [|done].
    apply (Hdisj _ Ht), list_elem_of_here. }
  rewrite Hsplit, bind_app, bind_cons.
  unfold found_in, lost_in, about.
  rewrite !omap_app, !filter_app.
  destruct (expiry_other b key l1 Hwf) as [H1 H1'].
  { intros t Ht. apply Hothers, elem_of_app. by left. }
  destruct (expiry_other b key l2 Hwf) as [H2 H2'].
  { intros t Ht. apply Hothers, elem_of_app. by right. }
  unfold found_in, lost_in, about in H1, H1', H2, H2'.
  rewrite H1, H1', H2, H2', !app_nil_r. cbn [app].
  unfold expiry_log, tk. cbn [t_key t_due]. rewrite Hagg.
  destruct (0 <? length (addresses agg)); [|done].
  cbn. split; [|done]. rewrite decide_True; [done|].
  by apply (wf_keys b Hwf).
Qed.

End Bursts.

Section BurstRuns.

Lemma run_until_cons (horizon now : nat) (i : Input)
    (sched : list (nat * Input)) (b : DnsSdBrowse) :
  run_until horizon ((now, i) :: sched) b
  = ((run_until horizon sched (timed_step now i b).1).1,
     (timed_step now i b).2 ++ (run_until horizon sched (timed_step now i b).1).2).
Proof.
  unfold run_until. cbn [run].
  destruct (timed_step now i b) as [b1 log1]. cbn [fst snd].
  destruct (run sched b1) as [b2 log2].
  destruct (advance horizon b2) as [b3 log3]. cbn. by rewrite app_assoc.
Qed.

Lemma timed_step_found (now : nat) (incoming : Service) (b : DnsSdBrowse) :
  _stopped (advance now b).1 = false →
  timed_step now (InRaw (RawFound incoming)) b
  = (on_serviceFound now incoming (advance now b).1, (advance now b).2).
Proof.
  intros Hrun. unfold timed_step.
  destruct (advance now b) as [b1 log1]. cbn [fst snd] in *.
  cbn. unfold browse_callback. rewrite Hrun. cbn. by rewrite app_nil_r.
Qed.

(** An event of the burst arrives while the timeout of [key] is pending. *)
Lemma burst_event (now prev : nat) (key : string) (agg incoming : Service)
    (b : DnsSdBrowse) :
  pending_for key (prev + DEBOUNCE_TIMEOUT) agg b →
  service_key incoming = key →
  now < prev + DEBOUNCE_TIMEOUT →
  let r := timed_step now (InRaw (RawFound incoming)) b in
  pending_for key (now + DEBOUNCE_TIMEOUT) (merge_entry agg incoming) r.1
  ∧ about key (found_in r.2) = [] ∧ lost_in r.2 = [].
Proof.
  intros (Hwf & Hrun & Hagg & h & Hin) Hkey Hnow r.
  destruct (advance_early now key b Hwf Hrun)
    as (Hwf1 & Hrun1 & Hsvc1 & _ & Hlog1 & Hlost1).
  { intros t Ht Hk.
    assert (t = mkTimeout h key (prev + DEBOUNCE_TIMEOUT)) as ->; [|done].
    by apply (same_key_same_timeout b). }
  unfold r. rewrite timed_step_found by done. cbn [fst snd].
  split; [|done].
  pose proof (found_pending now incoming _ Hwf1 Hrun1) as Hp.
  by rewrite Hkey, Hsvc1, Hagg in Hp.
Qed.

(** The addresses of an aggregate, when every address reported has at
    most one percent sign: the reported addresses, each normalised. *)
Lemma merge_entry_addresses (acc incoming : Service) (a : string) :
  (∀ x, x ∈ addresses acc → strip_scope x = x) →
  a ∈ addresses (merge_entry acc incoming)
  ↔ a ∈ addresses acc
    ∨ ∃ a', a' ∈ addresses incoming ∧ a = strip_scope a'.
Proof.
  intros Hfix. cbn. rewrite list_elem_of_fmap. split.
  - intros (x & -> & [Hx | Hx]%elem_of_set_from%elem_of_app).
    + left. by rewrite Hfix.
    + right. by exists x.
  - intros [Ha | (a' & Ha' & ->)].
    + exists a. rewrite Hfix by done. split; [done|].
      apply elem_of_set_from, elem_of_app. by left.
    + exists a'. split; [done|].
      apply elem_of_set_from, elem_of_app. by right.
Qed.

Lemma aggregate_addresses (rest : list Service) (acc : Service) (a : string) :
  (∀ x, x ∈ addresses acc → strip_scope x = x) →
  Forall (λ s, Forall (λ x, count_percent x ≤ 1) (addresses s)) rest →
  a ∈ addresses (foldl merge_entry acc rest)
  ↔ a ∈ addresses acc
    ∨ ∃ s a', s ∈ rest ∧ a' ∈ addresses s ∧ a = strip_scope a'.
Proof.
  revert acc. induction rest as [|s rest IH]; intros acc Hfix Hsimple.
  - cbn. split; [by left|]. intros [?|(s & a' & Hs & _)]; [done|].
    by apply elem_of_nil in Hs.
  - apply Forall_cons in Hsimple as [Hs Hsimple]. cbn [foldl].
    rewrite IH; [|..|done].
    + rewrite merge_entry_addresses by done. split.
      * intros [[Ha | (a' & Ha' & ->)] | (s' & a' & Hs' & Ha' & ->)].
        -- by left.
        -- right. exists s, a'. split; [apply list_elem_of_here|done].
        -- right. exists s', a'. split; [by apply list_elem_of_further|done].
      * intros [Ha | (s' & a' & [-> | Hs']%elem_of_cons & Ha' & ->)].
        -- left. by left.
        -- left. right. by exists a'.
        -- right. by exists s', a'.
    + intros x Hx. apply merge_entry_addresses in Hx; [|done].
      destruct Hx as [Hx | (a' & Ha' & ->)]; [by apply Hfix|].
      apply strip_scope_idem_simple.
      by apply (proj1 (Forall_forall _ _) Hs).
Qed.

End BurstRuns.

(** ** Losing a service *)

Section Losing.

Lemma timed_step_lost (now : nat) (lost : Service) (b : DnsSdBrowse) :
  _stopped (advance now b).1 = false →
  timed_step now (InRaw (RawLost lost)) b
  = ((on_serviceLost lost (advance now b).1).1,
     (advance now b).2
     ++ ((λ n, (now, n)) <$> (on_serviceLost lost (advance now b).1).2)).
Proof.
  intros Hrun. unfold timed_step.
  destruct (advance now b) as [b1 log1]. cbn [fst snd] in *.
  cbn. unfold browse_callback. rewrite Hrun.
  by destruct (on_serviceLost lost b1).
Qed.

(** A [Lost] event for a key the table of a running session holds. *)
Lemma lost_running (lost service : Service) (b : DnsSdBrowse) :
  wf b → _stopped b = false →
  _services b !! service_key lost = Some service →
  let r := on_serviceLost lost b in
  wf r.1 ∧ _stopped r.1 = false
  ∧ r.2 = [serviceLost service]
  ∧ _services r.1 = delete (service_key lost) (_services b)
  ∧ _pendingEmit r.1 !! service_key lost = None
  ∧ (∀ t, t ∈ timeouts r.1 → t_key t ≠ service_key lost).
Proof.
  intros Hwf Hrun Hsvc r.
  pose proof (wf_on_serviceLost lost b Hwf Hrun) as Hwf1. fold r in Hwf1.
  split; [done|]. clear Hwf1. unfold r, on_serviceLost. rewrite Hsvc. fields.
  split; [done|]. split; [done|]. split; [done|]. split.
  - destruct (_pendingEmit b !! service_key lost) eqn:Hp; cbn [snd].
    + apply lookup_delete_eq.
    + done.
  - intros t Ht. apply (cleared_key b); [done|].
    by destruct (_pendingEmit b !! service_key lost).
Qed.

End Losing.

(** C6, as the code has it: the table is looked up by the key, the
    name, type and domain of the event joined with [|], not by the
    identity.  On a running session a [Lost] event for a key the table holds
    removes the entry, cancels the timeout pending for the key, so that no
    [serviceFound] about it follows, and emits one [serviceLost] carrying
    the entry as it last was; for a key the table does not hold the event
    emits nothing and changes nothing.  A [Found] followed by a [Lost]
    before the debounce interval is over thus yields no [serviceFound] and
    one [serviceLost] about the key. *)
Theorem lost_cancels_pending (handle : Z) (pre : list Action)
    (now horizon : nat) (lost : Service) :
  let b := (exec pre (new_browse handle)).1 in
  let key := service_key lost in
  let r := browse_callback now (RawLost lost) b in
  _stopped b = false →
  key = name lost +:+ "|" +:+ type lost +:+ "|" +:+ domain lost
  ∧ match _services b !! key with
  | Some service =>
      r.2 = [serviceLost service]
      ∧ _services r.1 = delete key (_services b)
      ∧ _pendingEmit r.1 !! key = None
      ∧ (∀ t, t ∈ timeouts r.1 → t_key t ≠ key)
      ∧ about key (found_in (advance horizon r.1).2) = []
  | None => r = (b, [])
  end
  ∧ (∀ (found : Service) (t0 : nat),
       service_key found = key →
       Forall (λ t, t_key t = key → t0 < t_due t) (timeouts b) →
       t0 ≤ now → now < t0 + DEBOUNCE_TIMEOUT →
       let log :=
         (run_until horizon
            [(t0, InRaw (RawFound found)); (now, InRaw (RawLost lost))] b).2 in
       about key (found_in log) = []
       ∧ about key (lost_in log)
         = [(now, merge_found (_services b !! key) found)]).
Proof.
  intros b key r Hrun.
  pose proof (wf_reachable handle pre) as Hwf. fold b in Hwf.
  split; [done|]. split.
  - unfold r, browse_callback. rewrite Hrun.
    destruct (_services b !! key) as [service|] eqn:Hsvc.
    + destruct (lost_running lost service b Hwf Hrun Hsvc)
        as (Hwf1 & Hrun1 & Hout & Htable & Hpend & Hq).
      split; [done|]. split; [done|]. split; [done|]. split; [done|].
      by destruct (advance_early horizon key _ Hwf1 Hrun1)
        as (_ & _ & _ & _ & Hquiet & _);
        [intros t Ht Hk; by apply Hq in Ht|].
    + unfold on_serviceLost. fold key. by rewrite Hsvc.
  - intros found t0 Hkey Hlater Hle Hlt log.
    destruct (advance_early t0 key b Hwf Hrun)
      as (Hwf1 & Hrun1 & Hsvc1 & _ & Hf1 & Hl1).
    { intros t Ht. by apply (proj1 (Forall_forall _ _) Hlater). }
    pose proof (found_pending t0 found _ Hwf1 Hrun1) as Hpend.
    rewrite Hsvc1, Hkey in Hpend.
    set (agg := merge_found (_services b !! key) found) in *.
    destruct Hpend as (Hwf2 & Hrun2 & Hagg & h & Hin).
    set (b2 := on_serviceFound t0 found (advance t0 b).1) in *.
    destruct (advance_early now key b2 Hwf2 Hrun2)
      as (Hwf3 & Hrun3 & Hsvc3 & _ & Hf3 & Hl3).
    { intros t Ht Hk.
      assert (t = mkTimeout h key (t0 + DEBOUNCE_TIMEOUT)) as ->; [|done].
      by apply (same_key_same_timeout b2). }
    rewrite <- Hsvc3 in Hagg.
    destruct (lost_running lost agg _ Hwf3 Hrun3 Hagg)
      as (Hwf4 & Hrun4 & Hout & _ & _ & Hq).
    set (b4 := (on_serviceLost lost (advance now b2).1).1) in *.
    destruct (advance_early horizon key b4 Hwf4 Hrun4)
      as (_ & _ & _ & _ & Hf5 & Hl5).
    { intros t Ht Hk. by apply Hq in Ht. }
    unfold log.
    rewrite run_until_cons, timed_step_found by done. cbn [fst snd].
    fold b2.
    rewrite run_until_cons, timed_step_lost by done. cbn [fst snd].
    fold b4. rewrite Hout.
    unfold run_until. cbn [run].
    destruct (advance horizon b4) as [b5 log5]. cbn [fst snd app] in *.
    unfold found_in, lost_in, about in *.
    rewrite !omap_app, !filter_app, Hf1, Hl1, Hf3, Hl3, Hf5, Hl5.
    cbn. split; [done|]. rewrite decide_True; [done|].
    apply (wf_keys _ Hwf3 _ _ Hagg).
Qed.

Lemma lost_cancels_pending_witness :
  let seen := printer ["192.168.1.20"] in
  let b := (exec [Raw 0 (RawFound seen)] (new_browse 1)).1 in
  let log :=
    (run_until 1000
       [(0, InRaw (RawFound seen)); (10, InRaw (RawLost (printer [])))]
       (new_browse 1)).2 in
  (browse_callback 10 (RawLost (printer [])) b).2 = [serviceLost seen]
  ∧ about (service_key seen) (found_in log) = []
  ∧ about (service_key seen) (lost_in log) = [(10, seen)].
Proof.
  intros seen b log. split.
  - destruct (lost_cancels_pending 1 [Raw 0 (RawFound seen)] 10 1000
                (printer []) eq_refl) as (_ & Hstep & _).
    vm_compute in Hstep. destruct Hstep as [Hout _]. exact Hout.
  - destruct (lost_cancels_pending 1 [] 10 1000 (printer []) eq_refl)
      as (_ & _ & Hburst).
    apply (Hburst seen 0).
    + reflexivity.
    + constructor.
    + vm_compute. lia.
    + vm_compute. lia.
Defined.

(** C6 as stated fails for identities: a [Lost] event for an identity the
    table never held removes the entry of another identity that has the
    same key, and emits [serviceLost] for it. *)
Lemma lost_hits_shared_key :
  let b :=
    (exec [Raw 0 (RawFound (den_tv ["192.168.1.20"]))] (new_browse 1)).1 in
  let r := browse_callback 10 (RawLost (attic_tv [])) b in
  _services b = {[ service_key (den_tv []) := den_tv ["192.168.1.20"] ]}
  ∧ identity (den_tv ["192.168.1.20"]) ≠ identity (attic_tv [])
  ∧ r.2 = [serviceLost (den_tv ["192.168.1.20"])]
  ∧ _services r.1 = ∅.
Proof. by vm_compute. Qed.

(** ** Keys *)

Lemma fire_running_out (b : DnsSdBrowse) (t : Timeout) :
  wf b → _stopped b = false → t ∈ timeouts b →
  (fire (t_handle t) b).2
  = match _services b !! t_key t with
    | Some svc =>
        if 0 <? length (addresses svc) then [serviceFound svc] else []
    | None => []
    end.
Proof.
  intros Hwf Hrun Ht. unfold fire.
  destruct (fire_finds b t Hwf Ht) as [i ->].
  rewrite debounce_expired_out. fields. by rewrite Hrun.
Qed.

(** C10: the table is keyed by the name, the type and the domain joined
    with [|], and two distinct identities can share that key.  Whenever
    two [Found] events carry the same key, the second is merged into the
    entry of the first: the table has one entry under the key, one timeout
    is live for it, and its expiry emits that one merged entry. *)
Theorem key_collision_merges (handle : Z) (pre : list Action)
    (now1 now2 : nat) (s1 s2 : Service) :
  let b := (exec pre (new_browse handle)).1 in
  let key := service_key s1 in
  let b1 := (browse_callback now1 (RawFound s1) b).1 in
  let b2 := (browse_callback now2 (RawFound s2) b1).1 in
  let merged := merge_entry (merge_found (_services b !! key) s1) s2 in
  _stopped b = false →
  service_key s2 = key →
  service_key s1 = name s1 +:+ "|" +:+ type s1 +:+ "|" +:+ domain s1
  ∧ _services b2 = <[key := merged]> (_services b)
  ∧ (∀ t, t ∈ timeouts b2 → t_key t = key →
          t = mkTimeout (S (next_timeout b)) key (now2 + DEBOUNCE_TIMEOUT))
  ∧ (fire (S (next_timeout b)) b2).2
    = (if 0 <? length (addresses merged) then [serviceFound merged] else [])
  ∧ (name (den_tv []), type (den_tv []), domain (den_tv []))
    ≠ (name (attic_tv []), type (attic_tv []), domain (attic_tv []))
  ∧ service_key (den_tv []) = service_key (attic_tv []).
Proof.
  intros b key b1 b2 merged Hrun Hkey.
  pose proof (wf_reachable handle pre) as Hwf. fold b in Hwf.
  assert (b1 = on_serviceFound now1 s1 b) as Hb1.
  { unfold b1, browse_callback. by rewrite Hrun. }
  assert (wf b1) as Hwf1 by (rewrite Hb1; by apply wf_on_serviceFound).
  assert (_stopped b1 = false) as Hrun1 by by rewrite Hb1.
  assert (b2 = on_serviceFound now2 s2 b1) as Hb2.
  { unfold b2, browse_callback. by rewrite Hrun1. }
  assert (wf b2) as Hwf2 by (rewrite Hb2; by apply wf_on_serviceFound).
  assert (_services b2 = <[key := merged]> (_services b)) as Htable.
  { rewrite Hb2. cbn [on_serviceFound _services]. rewrite Hkey, Hb1.
    cbn [on_serviceFound _services]. fold key.
    by rewrite lookup_insert_eq, insert_insert_eq. }
  set (tk := mkTimeout (S (next_timeout b)) key (now2 + DEBOUNCE_TIMEOUT)).
  assert (tk ∈ timeouts b2) as Hlive.
  { rewrite Hb2. cbn [on_serviceFound timeouts]. apply elem_of_app. right.
    rewrite Hkey, Hb1. cbn [on_serviceFound next_timeout].
    apply list_elem_of_here. }
  split; [done|]. split; [done|]. split; [|split; [|by vm_compute]].
  - intros t Ht Hk. by apply (same_key_same_timeout b2).
  - change (S (next_timeout b)) with (t_handle tk).
    rewrite (fire_running_out b2 tk Hwf2); [|by rewrite Hb2|done].
    change (t_key tk) with key. by rewrite Htable, lookup_insert_eq.
Qed.

Lemma key_collision_merges_witness :
  let b1 :=
    (browse_callback 0 (RawFound (den_tv ["192.168.1.20"])) (new_browse 1)).1 in
  let b2 :=
    (browse_callback 50 (RawFound (attic_tv ["192.168.1.30"])) b1).1 in
  (fire 2 b2).2
  = [serviceFound
       {| name := "tv";
          type := "_http._tcp";
          domain := "den|_http._tcp|local.";
          hostName := "attic-tv.local.";
          addresses := ["192.168.1.20"; "192.168.1.30"];
          port := 8009;
          txt := None;
          ttl := None |}].
Proof.
  intros b1 b2.
  apply (key_collision_merges 1 [] 0 50
           (den_tv ["192.168.1.20"]) (attic_tv ["192.168.1.30"]));
    reflexivity.
Defined.

(** * Further properties of the code *)

(** ** The normaliser, again *)

(** X1: normalising only ever truncates.  The input is the output
    followed by what was cut, and what was cut is either nothing or one
    scope suffix: a percent sign followed by at least one character, none
    of them a percent sign. *)
Theorem strip_scope_truncates (s : string) :
  ∃ cut : string,
    s = strip_scope s +:+ cut
    ∧ (cut = "" ∨ matches_here cut = true)
    ∧ String.length (strip_scope s) + String.length cut = String.length s.
Proof.
  induction s as [|c rest IH].
  - exists "". split; [done|]. split; [by left|done].
  - cbn [strip_scope]. destruct (matches_here (String c rest)) eqn:Hm.
    + exists (String c rest). split; [done|]. split; [by right|done].
    + destruct IH as (cut & Heq & Hcut & Hlen). exists cut.
      split; [|split; [done|]].
      * change (String c (strip_scope rest) +:+ cut)
          with (String c (strip_scope rest +:+ cut)).
        by rewrite <- Heq.
      * cbn [String.length]. lia.
Qed.

Lemma strip_scope_iter_fixed (n : nat) (s : string) :
  strip_scope s = s → Nat.iter n strip_scope s = s.
Proof.
  intros Hs. induction n as [|n IH]; [done|].
  by rewrite Nat.iter_succ, IH.
Qed.

Lemma strip_scope_iter_bound (n : nat) (s : string) :
  count_percent s ≤ n →
  strip_scope (Nat.iter n strip_scope s) = Nat.iter n strip_scope s.
Proof.
  revert s. induction n as [|n IH]; intros s Hs.
  - cbn. apply strip_scope_no_percent, no_percent_count. lia.
  - rewrite Nat.iter_succ_r.
    destruct (strip_scope_count s) as [Heq | Hlt].
    + rewrite Heq, strip_scope_iter_fixed by done. exact Heq.
    + apply IH. lia.
Qed.

(** X2: normalising over and over comes to rest after at most as many
    passes as the address has percent signs, each pass that changes the
    address removing exactly one of them. *)
Theorem strip_scope_stabilises (s : string) :
  strip_scope (Nat.iter (count_percent s) strip_scope s)
  = Nat.iter (count_percent s) strip_scope s
  ∧ (strip_scope s = s
     ∨ S (count_percent (strip_scope s)) = count_percent s).
Proof.
  split; [by apply strip_scope_iter_bound|].
  induction s as [|c rest IH]; [by left|].
  cbn [strip_scope]. destruct (matches_here (String c rest)) eqn:Hm.
  - right. cbn [matches_here] in Hm.
    apply andb_prop in Hm as [[Hc _]%andb_prop Hnp].
    cbn [count_percent]. rewrite Hc.
    apply no_percent_count in Hnp. rewrite Hnp. done.
  - destruct IH as [-> | IH]; [by left|].
    right. cbn [count_percent]. lia.
Qed.

(** ** The address list of a merged entry *)

Section AddressOrder.

Lemma filter_all (P : string → Prop) `{!∀ x, Decision (P x)}
    (l : list string) :
  (∀ x, x ∈ l → P x) → filter P l = l.
Proof.
  induction l as [|x l IH]; intros HP; [done|].
  rewrite filter_cons_True by apply HP, list_elem_of_here.
  f_equal. apply IH. intros y Hy. by apply HP, list_elem_of_further.
Qed.

Lemma set_from_NoDup (l : list string) : NoDup l → set_from l = l.
Proof.
  induction 1 as [|x l Hx Hl IH]; [done|].
  cbn [set_from]. rewrite IH. f_equal.
  apply filter_all. by intros y Hy ->.
Qed.

Lemma set_from_app (l1 l2 : list string) :
  set_from (l1 ++ l2)
  = set_from l1 ++ filter (λ y, y ∉ l1) (set_from l2).
Proof.
  induction l1 as [|x l1 IH].
  - cbn [app set_from]. symmetry. apply filter_all.
    intros y _. apply not_elem_of_nil.
  - cbn [app set_from]. rewrite IH, filter_app. do 2 f_equal.
    rewrite list_filter_filter. apply list_filter_iff.
    intros y. rewrite not_elem_of_cons. tauto.
Qed.

End AddressOrder.

(** X3: a merge keeps the addresses the entry had, in their order and
    each normalised once more, and appends the incoming addresses the
    entry did not have, in the order of their first appearance; the list
    never gets longer than the two lists together. *)
Theorem merge_appends_new_addresses (service incoming : Service) :
  addresses (merge_entry service incoming)
  = (strip_scope <$> set_from (addresses service))
    ++ (strip_scope
          <$> filter (λ a, a ∉ addresses service)
                (set_from (addresses incoming)))
  ∧ length (addresses (merge_entry service incoming))
    ≤ length (addresses service) + length (addresses incoming)
  ∧ (NoDup (addresses service) →
     strip_scope <$> addresses service
       `prefix_of` addresses (merge_entry service incoming)).
Proof.
  assert (∀ l, length (set_from l) ≤ length l) as Hlen.
  { induction l as [|x l IH]; [done|]. cbn [set_from length].
    pose proof (length_filter (λ y, y ≠ x) (set_from l)). lia. }
  cbn [merge_entry addresses]. split; [|split].
  - by rewrite set_from_app, fmap_app.
  - rewrite length_fmap. etrans; [apply Hlen|]. by rewrite length_app.
  - intros Hnd. rewrite set_from_app, fmap_app, (set_from_NoDup _ Hnd).
    by eexists.
Qed.

Lemma merge_appends_new_addresses_witness :
  ["10.0.0.1"; "10.0.0.2"]
    `prefix_of` addresses
                  (merge_entry (printer ["10.0.0.1"; "10.0.0.2"])
                     (printer ["10.0.0.3"; "10.0.0.1"])).
Proof.
  destruct (merge_appends_new_addresses
              (printer ["10.0.0.1"; "10.0.0.2"])
              (printer ["10.0.0.3"; "10.0.0.1"])) as (_ & _ & Hprefix).
  apply Hprefix. apply (bool_decide_unpack _). by vm_compute.
Defined.

(** ** Several events for one key *)

Section Composition.

Lemma found_running (now : nat) (incoming : Service) (b : DnsSdBrowse) :
  _stopped b = false →
  browse_callback now (RawFound incoming) b
  = (on_serviceFound now incoming b, []).
Proof. intros Hrun. unfold browse_callback. by rewrite Hrun. Qed.

(** A run of [Found] events for one key folds them into its entry. *)
Lemma exec_founds (rest : list (nat * Service)) (key : string)
    (entry : Service) (b : DnsSdBrowse) :
  _stopped b = false →
  _services b !! key = Some entry →
  Forall (λ e, service_key e.2 = key) rest →
  let b' := (exec (found_action <$> rest) b).1 in
  _stopped b' = false
  ∧ _services b' !! key = Some (foldl merge_entry entry rest.*2).
Proof.
  revert entry b. induction rest as [|[now s] rest IH];
    intros entry b Hrun Hentry Hkeys; [done|].
  apply Forall_cons in Hkeys as [Hkey Hkeys]. cbn [fst snd] in Hkey.
  rewrite fmap_cons, exec_cons. unfold found_action at 1 2. cbn [fst snd step].
  rewrite found_running by done. cbn [fst snd fmap list_fmap foldl].
  apply IH; [done| |done].
  cbn [on_serviceFound _services]. rewrite Hkey, lookup_insert_eq.
  by rewrite Hentry.
Qed.

Lemma foldl_merge_entry_fields (entry : Service) (rest : list Service) :
  let e := foldl merge_entry entry rest in
  let latest := default entry (last rest) in
  identity e = identity entry
  ∧ hostName e = hostName latest
  ∧ port e = port latest
  ∧ ttl e = last_ttl entry rest.
Proof.
  induction rest as [|s rest IH] using rev_ind; [done|].
  cbn zeta in *. unfold last_ttl in *.
  rewrite !foldl_app, last_snoc. cbn [foldl default].
  destruct IH as (Hid & _ & _ & Httl).
  split; [exact Hid|]. split; [done|]. split; [done|].
  cbn [merge_entry ttl]. by rewrite Httl.
Qed.

End Composition.

(** X4: when several [Found] events for one key reach a running
    session one after the other, the entry under the key ends up with the
    host name and the port of the last event, with the last time to live
    that was present and not zero (else the one the entry had), and with
    the name, type and domain of the entry that was there, or of the first
    event if there was none. *)
Theorem founds_last_wins (b : DnsSdBrowse) (t0 : nat) (first : Service)
    (rest : list (nat * Service)) :
  _stopped b = false →
  Forall (λ e, service_key e.2 = service_key first) rest →
  let key := service_key first in
  let b' := (exec (found_action <$> (t0, first) :: rest) b).1 in
  let latest := default first (last rest.*2) in
  let start := merge_found (_services b !! key) first in
  ∃ e, _services b' !! key = Some e
       ∧ hostName e = hostName latest
       ∧ port e = port latest
       ∧ identity e = identity (default first (_services b !! key))
       ∧ ttl e = last_ttl start rest.*2.
Proof.
  intros Hrun Hkeys key b' latest start.
  assert (_services (on_serviceFound t0 first b) !! key = Some start) as Hstart.
  { cbn [on_serviceFound _services]. apply lookup_insert_eq. }
  destruct (exec_founds rest key start (on_serviceFound t0 first b))
    as [_ Hfinal]; [done..|].
  exists (foldl merge_entry start rest.*2). split.
  - unfold b'. rewrite fmap_cons, exec_cons. unfold found_action at 1 2.
    cbn [fst snd step]. by rewrite found_running.
  - destruct (foldl_merge_entry_fields start rest.*2)
      as (Hid & Hhost & Hport & Httl).
    rewrite Hid, Hhost, Hport, Httl. unfold latest, start.
    split; [|split; [|split; [|done]]].
    + destruct (last rest.*2); [done|]. cbn.
      by destruct (_services b !! key).
    + destruct (last rest.*2); [done|]. cbn.
      by destruct (_services b !! key).
    + by destruct (_services b !! key).
Qed.

Lemma founds_last_wins_witness :
  let b := new_browse 1 in
  let b' :=
    (exec (found_action
             <$> [(0, den_tv ["192.168.1.20"]);
                  (20, attic_tv ["192.168.1.30"])]) b).1 in
  ∃ e, _services b' !! service_key (den_tv []) = Some e
       ∧ hostName e = "attic-tv.local."
       ∧ port e = 8009%Z
       ∧ identity e = ("tv", "_http._tcp", "den|_http._tcp|local.")
       ∧ ttl e = None.
Proof.
  apply (founds_last_wins (new_browse 1) 0 (den_tv ["192.168.1.20"])
           [(20, attic_tv ["192.168.1.30"])]).
  - reflexivity.
  - repeat constructor.
Defined.

(** ** Forgetting *)

(** X5: once a running session has handled a [Lost] event for a key,
    the key is forgotten: another [Lost] for it emits nothing and changes
    nothing, and the next [Found] for it makes an entry from that event
    alone, with none of the addresses known before. *)
Theorem lost_forgets (b : DnsSdBrowse) (now now' : nat)
    (lost again : Service) :
  _stopped b = false →
  service_key again = service_key lost →
  let b1 := (browse_callback now (RawLost lost) b).1 in
  browse_callback now' (RawLost again) b1 = (b1, [])
  ∧ _services (browse_callback now' (RawFound again) b1).1
      !! service_key lost
    = Some (create_entry again).
Proof.
  intros Hrun Hkey b1.
  assert (_stopped b1 = false ∧ _services b1 !! service_key lost = None)
    as [Hrun1 Hgone].
  { unfold b1, browse_callback. rewrite Hrun. unfold on_serviceLost.
    destruct (_services b !! service_key lost) eqn:Hs; cbn.
    - split; [done|]. apply lookup_delete_eq.
    - done. }
  split.
  - unfold browse_callback. rewrite Hrun1. unfold on_serviceLost.
    by rewrite Hkey, Hgone.
  - rewrite found_running by done. cbn [fst on_serviceFound _services].
    by rewrite Hkey, lookup_insert_eq, Hgone.
Qed.

Lemma lost_forgets_witness :
  let b :=
    (exec [Raw 0 (RawFound (printer ["192.168.1.20"]))] (new_browse 1)).1 in
  let b1 := (browse_callback 10 (RawLost (printer [])) b).1 in
  browse_callback 20 (RawLost (printer ["fe80::1"])) b1 = (b1, [])
  ∧ _services (browse_callback 20 (RawFound (printer ["fe80::1"])) b1).1
      !! service_key (printer [])
    = Some (printer ["fe80::1"]).
Proof.
  intros b b1.
  apply (lost_forgets b 10 20 (printer []) (printer ["fe80::1"]));
    reflexivity.
Defined.

(** ** Errors and the stopped table *)

Section ErrorRelay.

Lemma step_errors (a : Action) (b : DnsSdBrowse) :
  _stopped b = false →
  errors_of (step a b).2
  = match a with Raw _ (RawError data) => [data] | _ => [] end.
Proof.
  intros Hrun. destruct a as [now event| h |]; cbn [step]; [| |done].
  - unfold browse_callback. rewrite Hrun. destruct event; try done.
    cbn. unfold on_serviceLost. by destruct (_services b !! _).
  - unfold fire. destruct (list_find _ (timeouts b)) as [[i t]|]; [|done].
    rewrite debounce_expired_out. cbn.
    destruct (_services b !! t_key t); [|done].
    by destruct (negb (_stopped b) && _).
Qed.

End ErrorRelay.

(** X6: a browse session forwards every raw [error] event that
    reaches it before [stop()], one notification per event, in the order
    of arrival and whatever else the session is doing; no other event
    yields an error notification, and none is emitted once stopped. *)
Theorem errors_relayed (acts : list Action) (b : DnsSdBrowse) :
  errors_of (exec acts b).2
  = (if _stopped b then [] else raw_errors_until_stop acts).
Proof.
  revert b. induction acts as [|a acts IH]; intros b.
  - by destruct (_stopped b).
  - rewrite exec_cons. cbn [snd]. unfold errors_of in *.
    rewrite omap_app, IH.
    destruct (step_frame a b) as (_ & Hs & _). rewrite Hs.
    destruct (_stopped b) eqn:Hrun.
    + destruct (stopped_step a b Hrun) as [_ ->]. done.
    + cbn [orb]. pose proof (step_errors a b Hrun) as He.
      unfold errors_of in He. rewrite He.
      destruct a as [now [s|s|data|ev]| h |]; cbn; done.
Qed.

Lemma stopped_services (acts : list Action) (s : DnsSdBrowse) :
  _stopped s = true → _services (exec acts s).1 = _services s.
Proof.
  revert s. induction acts as [|a acts IH]; intros s Hs; [done|].
  rewrite exec_cons. cbn [fst].
  destruct (stopped_step a s Hs) as [Hs1 _]. rewrite IH by done.
  destruct a as [now event| h |]; cbn [step].
  - unfold browse_callback. by rewrite Hs.
  - unfold fire. destruct (list_find _ (timeouts s)) as [[i t]|]; [|done].
    by rewrite debounce_expired_state.
  - unfold stop. by rewrite Hs.
Qed.

(** X7: [stop()] does not empty the table, and nothing changes it
    afterwards: whatever raw events, timeouts and further stops follow, a
    stopped session keeps the entries it had. *)
Theorem stopped_table_frozen (b : DnsSdBrowse) (acts : list Action) :
  _services (stop b) = _services b
  ∧ _services (exec acts (stop b)).1 = _services b.
Proof.
  assert (_services (stop b) = _services b) as Hstop.
  { unfold stop. by destruct (_stopped b). }
  split; [done|]. rewrite <- Hstop. apply stopped_services.
  unfold stop. by destruct (_stopped b) eqn:E.
Qed.

(** ** What the table holds, and what is announced *)

Section TableInvariant.

Context (P : string → Service → Prop) (Q : Service → Prop).
Hypothesis P_create : ∀ s, Q s → P (service_key s) (create_entry s).
Hypothesis P_merge :
  ∀ e s, P (service_key s) e → Q s → P (service_key s) (merge_entry e s).

Lemma step_table (a : Action) (b : DnsSdBrowse) :
  table_ok P b →
  match a with Raw _ (RawFound data) => Q data | _ => True end →
  table_ok P (step a b).1 ∧ carried_ok P (step a b).2.
Proof.
  intros Htable Ha. destruct a as [now event| h |]; cbn [step].
  - unfold browse_callback.
    destruct (_stopped b); [split; [done|constructor]|].
    destruct event as [s|s|data|ev]; cbn [fst snd].
    + split; [|constructor]. intros k e. cbn [on_serviceFound _services].
      rewrite lookup_insert. case_decide as Hk; [|apply Htable].
      intros [= <-]. subst k.
      destruct (_services b !! service_key s) eqn:Hs; cbn [merge_found].
      * apply P_merge; [by apply Htable|done].
      * by apply P_create.
    + unfold on_serviceLost.
      destruct (_services b !! service_key s) as [e|] eqn:Hs;
        [|split; [done|constructor]].
      cbn [fst snd _services]. split.
      * intros k e'. cbn [_services]. rewrite lookup_delete.
        case_decide; [done|apply Htable].
      * constructor; [|constructor]. cbn. exists (service_key s).
        by apply Htable.
    + split; [done|]. by repeat constructor.
    + split; [done|constructor].
  - unfold fire.
    destruct (list_find _ (timeouts b)) as [[i t]|];
      [|split; [done|constructor]].
    rewrite debounce_expired_state, debounce_expired_out.
    cbn [_services _stopped]. split; [done|].
    destruct (_services b !! t_key t) as [e|] eqn:Hs; [|constructor].
    destruct (negb (_stopped b) && _); [|constructor].
    constructor; [|constructor]. cbn. exists (t_key t). by apply Htable.
  - split; [|constructor]. unfold stop. by destruct (_stopped b).
Qed.

Lemma exec_table (acts : list Action) (b : DnsSdBrowse) :
  table_ok P b → events_ok Q acts →
  table_ok P (exec acts b).1 ∧ carried_ok P (exec acts b).2.
Proof.
  revert b. induction acts as [|a acts IH]; intros b Htable Hacts.
  - split; [done|]. constructor.
  - apply Forall_cons in Hacts as [Ha Hacts].
    destruct (step_table a b Htable Ha) as [Htable1 Hout1].
    destruct (IH _ Htable1 Hacts) as [Htable2 Hout2].
    rewrite exec_cons. split; [done|]. by apply Forall_app.
Qed.

End TableInvariant.

Lemma events_ok_found_events (acts : list Action) :
  events_ok (λ s, s ∈ found_events acts) acts.
Proof.
  apply Forall_forall. intros a Ha.
  destruct a as [now [s| | |]| |]; try done.
  apply list_elem_of_omap. by exists (Raw now (RawFound s)).
Qed.

Lemma table_ok_new (P : string → Service → Prop) (handle : Z) :
  table_ok P (new_browse handle).
Proof. intros k e Hk. cbn in Hk. by rewrite lookup_empty in Hk. Qed.

(** X8: a session announces nothing the backend did not report.
    Every record a notification carries has the name, type and domain of a
    record some [serviceFound] event of the session carried, the host name
    and port of such a record, and as addresses only addresses of such
    records, normalised at least once; all these records have the key of
    the one announced. *)
Theorem nothing_invented (handle : Z) (acts : list Action) :
  carried_ok (from_reports (found_events acts))
    (exec acts (new_browse handle)).2.
Proof.
  apply (exec_table (from_reports (found_events acts))
           (λ s, s ∈ found_events acts));
    [| |apply table_ok_new|apply events_ok_found_events].
  - intros s Hs. split; [done|]. split; [by exists s|]. split; [by exists s|].
    intros a (a' & -> & Ha')%list_elem_of_fmap. by exists s, a', 0.
  - intros e s (Hkey & Hid & _ & Haddr) Hs.
    split; [done|]. split; [exact Hid|]. split; [by exists s|].
    intros a (x & -> & [Hx | Hx]%elem_of_set_from%elem_of_app)%list_elem_of_fmap.
    + destruct (Haddr x Hx) as (s' & a' & n & Hs' & Hk' & Ha' & ->).
      by exists s', a', (S n).
    + by exists s, x, 0.
Qed.

(** X9: as long as every [serviceFound] event carries addresses
    without percent sign and without duplicate, so does every record the
    session announces: the duplicates of a merged address list come from
    scoped or repeated addresses only. *)
Theorem plain_addresses_kept (handle : Z) (acts : list Action) :
  events_ok plain_addresses acts →
  carried_ok (λ _, plain_addresses) (exec acts (new_browse handle)).2.
Proof.
  assert (∀ l : list string,
            Forall (λ a, no_percent a = true) l → strip_scope <$> l = l)
    as Hid.
  { induction 1 as [|a l Ha Hl IH]; [done|].
    by rewrite fmap_cons, IH, strip_scope_no_percent. }
  intros Hacts.
  apply (exec_table (λ _, plain_addresses) plain_addresses);
    [| |apply table_ok_new|done].
  - intros s [Hnd Hplain]. unfold plain_addresses.
    cbn [create_entry addresses]. by rewrite Hid.
  - intros e s [Hnd Hplain] [Hnd' Hplain']. unfold plain_addresses.
    cbn [merge_entry addresses].
    assert (Forall (λ a, no_percent a = true)
              (set_from (addresses e ++ addresses s))) as Hall.
    { apply Forall_forall. intros a [Ha | Ha]%elem_of_set_from%elem_of_app.
      - by apply (proj1 (Forall_forall _ _) Hplain).
      - by apply (proj1 (Forall_forall _ _) Hplain'). }
    rewrite Hid by done. split; [apply NoDup_set_from|done].
Qed.

Lemma plain_addresses_kept_witness :
  carried_ok (λ _, plain_addresses)
    (exec [Raw 0 (RawFound (printer ["192.168.1.20"]));
           Raw 10 (RawFound (printer ["192.168.1.20"; "10.0.0.7"]));
           Fire 2]
       (new_browse 1)).2.
Proof.
  apply plain_addresses_kept.
  repeat constructor; apply (bool_decide_unpack _); by vm_compute.
Defined.

(** X10: as long as no reported address has more than one percent
    sign, every address the session announces is left unchanged by the
    normaliser: no scope suffix reaches the application. *)
Theorem announced_addresses_normal (handle : Z) (acts : list Action) :
  events_ok (λ s, Forall (λ a, count_percent a ≤ 1) (addresses s)) acts →
  carried_ok (λ _ e, Forall (λ a, strip_scope a = a) (addresses e))
    (exec acts (new_browse handle)).2.
Proof.
  intros Hacts.
  apply (exec_table
           (λ _ e, Forall (λ a, strip_scope a = a) (addresses e))
           (λ s, Forall (λ a, count_percent a ≤ 1) (addresses s)));
    [| |apply table_ok_new|done].
  - intros s Hs. cbn [create_entry addresses].
    apply Forall_fmap. eapply Forall_impl; [exact Hs|].
    intros a Ha. by apply strip_scope_idem_simple.
  - intros e s He Hs. cbn [merge_entry addresses].
    apply Forall_fmap, Forall_forall.
    intros a [Ha | Ha]%elem_of_set_from%elem_of_app; cbn.
    + by rewrite !(proj1 (Forall_forall _ _) He a Ha).
    + apply strip_scope_idem_simple.
      by apply (proj1 (Forall_forall _ _) Hs).
Qed.

Lemma announced_addresses_normal_witness :
  carried_ok (λ _ e, Forall (λ a, strip_scope a = a) (addresses e))
    (exec [Raw 0 (RawFound (printer ["fe80::1%eth0"]));
           Raw 10 (RawFound (printer ["fe80::1%wlan0"]));
           Fire 2]
       (new_browse 1)).2.
Proof.
  apply announced_addresses_normal.
  repeat constructor; vm_compute; lia.
Defined.

(** ** Remembered timeouts *)

Section Tracked.

(** Two keys never remember the same timeout. *)
Lemma pending_distinct (b : DnsSdBrowse) (k k0 : string) (h h0 : nat) :
  wf b → tracked b →
  _pendingEmit b !! k = Some h → _pendingEmit b !! k0 = Some h0 →
  k ≠ k0 → h ≠ h0.
Proof.
  intros Hwf Htr Hk Hk0 Hne <-.
  destruct (Htr k h Hk) as [[due Hin] _].
  destruct (Htr k0 h Hk0) as [[due0 Hin0] _].
  pose proof (wf_unique b Hwf _ _ Hin Hin0 eq_refl) as Heq.
  by injection Heq.
Qed.

Lemma tracked_new (handle : Z) : tracked (new_browse handle).
Proof. intros k h Hk. cbn in Hk. by rewrite lookup_empty in Hk. Qed.

Lemma tracked_on_serviceFound (now : nat) (incoming : Service)
    (b : DnsSdBrowse) :
  wf b → tracked b → tracked (on_serviceFound now incoming b).
Proof.
  intros Hwf Htr k h. cbn [on_serviceFound _pendingEmit timeouts _services].
  rewrite !lookup_insert. case_decide as Hk.
  - intros [= <-]. subst k. split; [|done].
    eexists. apply elem_of_app. right. apply list_elem_of_here.
  - intros Hp. destruct (Htr k h Hp) as [[due Hin] Hsvc]. split; [|done].
    exists due. apply elem_of_app. left.
    destruct (_pendingEmit b !! service_key incoming) as [h0|] eqn:Hp0;
      [|done].
    apply elem_of_clearTimeout. split; [done|]. cbn.
    by apply (pending_distinct b k (service_key incoming)).
Qed.

Lemma tracked_on_serviceLost (lost : Service) (b : DnsSdBrowse) :
  wf b → tracked b → tracked (on_serviceLost lost b).1.
Proof.
  intros Hwf Htr. unfold on_serviceLost.
  destruct (_services b !! service_key lost) as [service|] eqn:Hs; [|done].
  intros k h. cbn [fst _pendingEmit timeouts _services]. intros Hp.
  assert (k ≠ service_key lost ∧ _pendingEmit b !! k = Some h) as [Hk Hp'].
  { destruct (_pendingEmit b !! service_key lost) as [h0|] eqn:Hp0;
      cbn [snd] in Hp.
    - rewrite lookup_delete in Hp. by case_decide.
    - split; [|done]. intros ->. congruence. }
  destruct (Htr k h Hp') as [[due Hin] Hsvc]. split.
  - exists due.
    destruct (_pendingEmit b !! service_key lost) as [h0|] eqn:Hp0;
      cbn [fst]; [|done].
    apply elem_of_clearTimeout. split; [done|]. cbn.
    by apply (pending_distinct b k (service_key lost)).
  - by rewrite lookup_delete_ne.
Qed.

Lemma tracked_fire (h : nat) (b : DnsSdBrowse) :
  wf b → tracked b → tracked (fire h b).1.
Proof.
  intros Hwf Htr. unfold fire.
  destruct (list_find _ (timeouts b)) as [[i t]|] eqn:Hfind; [|done].
  apply fire_live in Hfind as [Hin Hh].
  rewrite debounce_expired_state. intros k h'.
  cbn [_pendingEmit timeouts _services]. rewrite lookup_delete.
  case_decide as Hk; [done|]. intros Hp.
  destruct (Htr k h' Hp) as [[due Hin'] Hsvc]. split; [|done].
  exists due. apply elem_of_clearTimeout. split; [done|]. cbn. intros ->.
  apply Hk.
  exact (f_equal t_key (wf_unique b Hwf _ _ Hin Hin' Hh)).
Qed.

Lemma tracked_step (a : Action) (b : DnsSdBrowse) :
  wf b → tracked b → tracked (step a b).1.
Proof.
  intros Hwf Htr. destruct a as [now event| h |]; cbn [step fst].
  - unfold browse_callback. destruct (_stopped b); [done|].
    destruct event; cbn [fst]; try done.
    + by apply tracked_on_serviceFound.
    + by apply tracked_on_serviceLost.
  - by apply tracked_fire.
  - unfold stop. destruct (_stopped b); [done|].
    intros k h'. cbn [_pendingEmit]. by rewrite lookup_empty.
Qed.

Lemma tracked_reachable (handle : Z) (acts : list Action) :
  tracked (exec acts (new_browse handle)).1.
Proof.
  assert (∀ b, wf b → tracked b → tracked (exec acts b).1) as Hgen.
  { induction acts as [|a acts IH]; intros b Hwf Htr; [done|].
    rewrite exec_cons. cbn [fst].
    apply IH; [by apply wf_step|by apply tracked_step]. }
  apply Hgen; [apply wf_new|apply tracked_new].
Qed.

End Tracked.

(** X11: in every state a session can reach, at most one timeout is
    live for a key, every live timeout is the one remembered for its key
    and belongs to an entry of the table, every remembered timeout is
    live, and so no more emissions are pending than the table has
    entries. *)
Theorem pending_bounded (handle : Z) (acts : list Action) :
  let b := (exec acts (new_browse handle)).1 in
  (∀ t t', t ∈ timeouts b → t' ∈ timeouts b → t_key t = t_key t' → t = t')
  ∧ (∀ t, t ∈ timeouts b →
          _pendingEmit b !! t_key t = Some (t_handle t)
          ∧ is_Some (_services b !! t_key t))
  ∧ (∀ k h, _pendingEmit b !! k = Some h →
            ∃ due, mkTimeout h k due ∈ timeouts b)
  ∧ length (timeouts b) ≤ size (_services b).
Proof.
  intros b.
  pose proof (wf_reachable handle acts) as Hwf.
  pose proof (tracked_reachable handle acts) as Htr. fold b in Hwf, Htr.
  assert (∀ t, t ∈ timeouts b →
            _pendingEmit b !! t_key t = Some (t_handle t)
            ∧ is_Some (_services b !! t_key t)) as Hlive.
  { intros t Ht. pose proof (wf_pending b Hwf t Ht) as Hp.
    split; [done|]. by apply (Htr _ _ Hp). }
  split; [intros t t'; by apply same_key_same_timeout|].
  split; [done|]. split; [intros k h Hp; by apply (Htr k h Hp)|].
  assert (NoDup (t_key <$> timeouts b)) as Hnd.
  { apply NoDup_fmap_2_strong; [|apply (wf_nodup b Hwf)].
    intros t t'. by apply same_key_same_timeout. }
  rewrite <- (length_fmap t_key), <- (size_list_to_set (C := gset string))
    by done.
  rewrite <- size_dom. apply subseteq_size.
  intros k (t & -> & Ht)%elem_of_list_to_set%list_elem_of_fmap.
  apply elem_of_dom. by apply Hlive.
Qed.

(** X12: on a running session a raw event touches nothing but its own
    key: the table entry, the remembered timeout and the live timeouts of
    every other key are after the event what they were before it. *)
Theorem other_keys_untouched (handle : Z) (acts : list Action) (now : nat)
    (event : RawEvent) (k : string) :
  let b := (exec acts (new_browse handle)).1 in
  let r := (browse_callback now event b).1 in
  event_key event ≠ Some k →
  _services r !! k = _services b !! k
  ∧ _pendingEmit r !! k = _pendingEmit b !! k
  ∧ (∀ t, t_key t = k → t ∈ timeouts r ↔ t ∈ timeouts b).
Proof.
  intros b r Hk.
  pose proof (wf_reachable handle acts) as Hwf.
  pose proof (tracked_reachable handle acts) as Htr. fold b in Hwf, Htr.
  assert (∀ key t, key ≠ k → t_key t = k →
            t ∈ match _pendingEmit b !! key with
                | Some h => clearTimeout h (timeouts b)
                | None => timeouts b
                end ↔ t ∈ timeouts b) as Hkeep.
  { intros key t Hne Ht. split; [by intros [? _]%(cleared_key b)|].
    intros Hin. destruct (_pendingEmit b !! key) as [h0|] eqn:Hp0; [|done].
    apply elem_of_clearTimeout. split; [done|].
    apply (pending_distinct b k key); [done|done| |done|by intros ->].
    rewrite <- Ht. by apply (wf_pending b). }
  unfold r, browse_callback. destruct (_stopped b); [done|].
  destruct event as [s|s|data|ev]; cbn [event_key fst] in *; [| |done..].
  - assert (service_key s ≠ k) as Hne by congruence.
    cbn [on_serviceFound _services _pendingEmit timeouts].
    rewrite !lookup_insert_ne by done. split; [done|]. split; [done|].
    intros t Ht. rewrite elem_of_app, list_elem_of_singleton, Hkeep by done.
    split; [|tauto]. intros [?| ->]; [done|]. by cbn in Ht.
  - assert (service_key s ≠ k) as Hne by congruence.
    unfold on_serviceLost.
    destruct (_services b !! service_key s) as [e|] eqn:Hs; [|done].
    cbn [fst _services _pendingEmit timeouts].
    rewrite lookup_delete_ne by done. split; [done|].
    specialize (Hkeep (service_key s)).
    destruct (_pendingEmit b !! service_key s) as [h0|] eqn:Hp0; cbn [fst snd].
    + rewrite lookup_delete_ne by done. split; [done|].
      intros t Ht. by apply Hkeep.
    + done.
Qed.

Lemma other_keys_untouched_witness :
  let acts := [Raw 0 (RawFound (printer ["192.168.1.20"]))] in
  let b := (exec acts (new_browse 1)).1 in
  let r := (browse_callback 30 (RawLost (den_tv [])) b).1 in
  _services r !! service_key (printer [])
  = _services b !! service_key (printer []).
Proof.
  intros acts b r.
  apply (other_keys_untouched 1 acts 30 (RawLost (den_tv []))
           (service_key (printer []))).
  vm_compute. discriminate.
Defined.

(** ** When a service is announced *)

Section Answers.

Context (all : list (nat * Input)).

Lemma advance_answers (now : nat) (b : DnsSdBrowse) :
  wf b → (∀ t, t ∈ timeouts b → set_by all t) →
  let r := advance now b in
  wf r.1 ∧ (∀ t, t ∈ timeouts r.1 → set_by all t)
  ∧ (∀ e, e ∈ found_in r.2 → answers all e).
Proof.
  intros Hwf Hset r. destruct (_stopped b) eqn:Hrun.
  - destruct (wf_stopped b Hwf Hrun) as [Hq _].
    unfold r, advance. rewrite Hq. cbn. split; [done|]. split.
    + intros t. rewrite Hq. by intros ?%elem_of_nil.
    + by intros e ?%elem_of_nil.
  - destruct (advance_spec now b Hwf Hrun) as (Hwf1 & _ & _ & Hq1 & Hlog).
    fold r in Hwf1, Hq1, Hlog. split; [done|]. split.
    + intros t [Ht _]%Hq1. by apply Hset.
    + intros e. rewrite Hlog. unfold found_in.
      intros (x & Hx & He)%list_elem_of_omap.
      apply list_elem_of_bind in Hx as (t & Hx & [_ Ht]%list_elem_of_filter).
      unfold expiry_log in Hx.
      destruct (_services b !! t_key t) as [svc|] eqn:Hsvc;
        [|by apply elem_of_nil in Hx].
      destruct (0 <? length (addresses svc)); [|by apply elem_of_nil in Hx].
      apply list_elem_of_singleton in Hx as ->. cbn in He.
      injection He as <-.
      destruct (Hset t Ht) as (now' & data & Hin & Hdue & Hkey).
      exists now', data. split; [done|]. split; [done|]. cbn.
      by rewrite (wf_keys b Hwf _ _ Hsvc).
Qed.

Lemma input_answers (now : nat) (i : Input) (b : DnsSdBrowse) :
  wf b → (∀ t, t ∈ timeouts b → set_by all t) → (now, i) ∈ all →
  let r := step (input_action now i) b in
  wf r.1 ∧ (∀ t, t ∈ timeouts r.1 → set_by all t)
  ∧ found_in ((λ n, (now, n)) <$> r.2) = [].
Proof.
  intros Hwf Hset Hin r.
  split; [by apply wf_step|]. unfold r.
  destruct i as [event|]; cbn [input_action step].
  - unfold browse_callback. destruct (_stopped b) eqn:Hrun; [done|].
    destruct event as [s|s|data|ev]; cbn [fst snd]; [| |done..].
    + split; [|done]. intros t. cbn [on_serviceFound timeouts].
      intros [Ht | Ht]%elem_of_app.
      * apply (cleared_key b) in Ht as [Ht _]; [by apply Hset|done].
      * apply list_elem_of_singleton in Ht as ->. by exists now, s.
    + unfold on_serviceLost.
      destruct (_services b !! service_key s) as [e|]; [|done].
      cbn [fst snd timeouts]. split; [|done].
      intros t Ht. apply Hset.
      apply (cleared_key b (service_key s) t Hwf).
      by destruct (_pendingEmit b !! service_key s).
  - split; [|done]. unfold stop. destruct (_stopped b); [done|].
    cbn [timeouts]. intros t [Ht _]%elem_of_clear_all. by apply Hset.
Qed.

Lemma run_answers (sched : list (nat * Input)) (b : DnsSdBrowse) :
  (∀ x, x ∈ sched → x ∈ all) →
  wf b → (∀ t, t ∈ timeouts b → set_by all t) →
  let r := run sched b in
  wf r.1 ∧ (∀ t, t ∈ timeouts r.1 → set_by all t)
  ∧ (∀ e, e ∈ found_in r.2 → answers all e).
Proof.
  revert b. induction sched as [|[now i] sched IH]; intros b Hsub Hwf Hset.
  - cbn. split; [done|]. split; [done|]. by intros e ?%elem_of_nil.
  - cbn [run]. unfold timed_step.
    destruct (advance_answers now b Hwf Hset) as (Hwf1 & Hset1 & Hlog1).
    destruct (advance now b) as [b1 log1]. cbn [fst snd] in *.
    destruct (input_answers now i b1 Hwf1 Hset1) as (Hwf2 & Hset2 & Hlog2).
    { apply Hsub, list_elem_of_here. }
    destruct (step (input_action now i) b1) as [b2 out]. cbn [fst snd] in *.
    destruct (IH b2) as (Hwf3 & Hset3 & Hlog3); [|done..|].
    { intros x Hx. by apply Hsub, list_elem_of_further. }
    destruct (run sched b2) as [b3 log3]. cbn [fst snd] in *.
    split; [done|]. split; [done|].
    intros e. unfold found_in in *. rewrite !omap_app, Hlog2, app_nil_r.
    intros [He | He]%elem_of_app; [by apply Hlog1|by apply Hlog3].
Qed.

End Answers.

(** X13: in a timed run of a fresh session, every [serviceFound]
    notification answers a [serviceFound] event of the schedule: it is
    emitted exactly one debounce interval after such an event and carries
    a record with the key of that event.  No service is announced sooner
    than the debounce interval after it was reported, and none that was
    not reported. *)
Theorem found_answers_report (handle : Z) (horizon : nat)
    (sched : list (nat * Input)) (e : nat * Service) :
  e ∈ found_in (run_until horizon sched (new_browse handle)).2 →
  answers sched e ∧ DEBOUNCE_TIMEOUT ≤ e.1.
Proof.
  intros He.
  assert (answers sched e) as Hanswer.
  { destruct (run_answers sched sched (new_browse handle))
      as (Hwf1 & Hset1 & Hlog1); [done|apply wf_new| |].
    { intros t Ht. by apply elem_of_nil in Ht. }
    unfold run_until in He.
    destruct (run sched (new_browse handle)) as [b1 log1].
    cbn [fst snd] in *.
    destruct (advance_answers sched horizon b1 Hwf1 Hset1) as (_ & _ & Hlog2).
    destruct (advance horizon b1) as [b2 log2]. cbn [fst snd] in *.
    unfold found_in in *. rewrite omap_app in He.
    apply elem_of_app in He as [He | He]; [by apply Hlog1|by apply Hlog2]. }
  split; [done|]. destruct Hanswer as (now & data & _ & -> & _). lia.
Qed.

Lemma found_answers_report_witness :
  answers
    [(0, InRaw (RawFound (printer ["192.168.1.20"])));
     (50, InRaw (RawFound (printer ["fe80::1%eth0"])))]
    (150, printer ["192.168.1.20"; "fe80::1"]).
Proof.
  apply (found_answers_report 1 150
           [(0, InRaw (RawFound (printer ["192.168.1.20"])));
            (50, InRaw (RawFound (printer ["fe80::1%eth0"])))]
           (150, printer ["192.168.1.20"; "fe80::1"])).
  vm_compute. apply list_elem_of_here.
Defined.

(** ** Counting notifications *)

Section Counting.

Context (k : string).

Lemma count_key_app (l1 l2 : list string) :
  count_key k (l1 ++ l2) = count_key k l1 + count_key k l2.
Proof. unfold count_key. by rewrite filter_app, length_app. Qed.

Lemma count_key_singleton (x : string) :
  count_key k [x] = if decide (x = k) then 1 else 0.
Proof. unfold count_key. rewrite filter_cons. by case_decide. Qed.

Lemma has_key_insert {A : Type} (m : gmap string A) (key : string) (x : A) :
  has_key (<[key := x]> m) k = if decide (key = k) then 1 else has_key m k.
Proof. unfold has_key. rewrite lookup_insert. by case_decide. Qed.

Lemma has_key_delete {A : Type} (m : gmap string A) (key : string) :
  has_key (delete key m) k = if decide (key = k) then 0 else has_key m k.
Proof. unfold has_key. rewrite lookup_delete. by case_decide. Qed.

Lemma has_key_le {A : Type} (m : gmap string A) : has_key m k ≤ 1.
Proof. unfold has_key. destruct (m !! k); lia. Qed.

(** One step: what is announced or lost about [k] is paid for by a
    report of [k], by the timeout remembered for [k], or by its entry. *)
Lemma step_counts (a : Action) (b : DnsSdBrowse) :
  wf b →
  count_key k (announced_keys (step a b).2)
    + has_key (_pendingEmit (step a b).1) k
  ≤ count_key k (reported_keys [a]) + has_key (_pendingEmit b) k
  ∧ count_key k (lost_keys (step a b).2)
      + has_key (_services (step a b).1) k
    ≤ count_key k (reported_keys [a]) + has_key (_services b) k.
Proof.
  intros Hwf. destruct a as [now event| h |]; cbn [step].
  - unfold browse_callback. destruct (_stopped b); [cbn; lia|].
    destruct event as [s|s|data|ev]; cbn [fst snd]; [| |cbn; lia..].
    + cbn [on_serviceFound _pendingEmit _services].
      rewrite !has_key_insert.
      change (reported_keys [Raw now (RawFound s)]) with [service_key s].
      rewrite count_key_singleton. cbn.
      pose proof (has_key_le (_pendingEmit b)).
      pose proof (has_key_le (_services b)).
      case_decide; lia.
    + unfold on_serviceLost.
      destruct (_services b !! service_key s) as [e|] eqn:Hs; [|cbn; lia].
      cbn [fst snd _pendingEmit _services].
      change (lost_keys [serviceLost e]) with [service_key e].
      rewrite (wf_keys b Hwf _ _ Hs), count_key_singleton, has_key_delete.
      assert (has_key
                (match _pendingEmit b !! service_key s with
                 | Some timeout =>
                     (clearTimeout timeout (timeouts b),
                      delete (service_key s) (_pendingEmit b))
                 | None => (timeouts b, _pendingEmit b)
                 end).2 k ≤ has_key (_pendingEmit b) k) as Hp.
      { destruct (_pendingEmit b !! service_key s); cbn [snd]; [|done].
        rewrite has_key_delete. case_decide; lia. }
      cbn. case_decide as Hk; [|lia].
      subst k. unfold has_key at 3. rewrite Hs. lia.
  - unfold fire.
    destruct (list_find _ (timeouts b)) as [[i t]|] eqn:Hfind; [|cbn; lia].
    apply fire_live in Hfind as [Hin _].
    rewrite debounce_expired_state, debounce_expired_out.
    cbn [_pendingEmit _services _stopped]. rewrite has_key_delete.
    assert (lost_keys
              match _services b !! t_key t with
              | Some svc =>
                  if negb (_stopped b) && (0 <? length (addresses svc))
                  then [serviceFound svc] else []
              | None => []
              end = []) as ->.
    { destruct (_services b !! t_key t); [|done]. by destruct (_ && _). }
    split; [|cbn; lia].
    assert (count_key k
              (announced_keys
                 match _services b !! t_key t with
                 | Some svc =>
                     if negb (_stopped b) && (0 <? length (addresses svc))
                     then [serviceFound svc] else []
                 | None => []
                 end) ≤ if decide (t_key t = k) then 1 else 0) as Hle.
    { destruct (_services b !! t_key t) as [svc|] eqn:Hs;
        [|cbn; case_decide; lia].
      destruct (_ && _); [|cbn; case_decide; lia].
      change (announced_keys [serviceFound svc]) with [service_key svc].
      by rewrite (wf_keys b Hwf _ _ Hs), count_key_singleton. }
    change (count_key k (reported_keys [Fire h])) with 0.
    assert (has_key (_pendingEmit b) (t_key t) = 1) as Hone.
    { unfold has_key. by rewrite (wf_pending b Hwf t Hin). }
    destruct (decide (t_key t = k)) as [<-|Hk]; lia.
  - unfold stop. destruct (_stopped b); cbn; [lia|].
    unfold has_key at 1. rewrite lookup_empty. lia.
Qed.

Lemma exec_counts (acts : list Action) (b : DnsSdBrowse) :
  wf b →
  count_key k (announced_keys (exec acts b).2)
    + has_key (_pendingEmit (exec acts b).1) k
  ≤ count_key k (reported_keys acts) + has_key (_pendingEmit b) k
  ∧ count_key k (lost_keys (exec acts b).2)
      + has_key (_services (exec acts b).1) k
    ≤ count_key k (reported_keys acts) + has_key (_services b) k.
Proof.
  revert b. induction acts as [|a acts IH]; intros b Hwf; [cbn; lia|].
  rewrite exec_cons. cbn [fst snd].
  destruct (step_counts a b Hwf) as [Ha1 Hl1].
  destruct (IH _ (wf_step a b Hwf)) as [Ha2 Hl2].
  unfold announced_keys, lost_keys in *. rewrite !omap_app, !count_key_app.
  assert (count_key k (reported_keys (a :: acts))
          = count_key k (reported_keys [a]) + count_key k (reported_keys acts))
    as ->.
  { change (a :: acts) with ([a] ++ acts).
    unfold reported_keys, found_events.
    by rewrite omap_app, fmap_app, count_key_app. }
  lia.
Qed.

End Counting.

(** X14: a session never announces or loses a key more often than
    the backend reported it.  Over any course of events from construction,
    the [serviceFound] notifications about a key, and likewise the
    [serviceLost] notifications about it, are at most as many as the raw
    [serviceFound] events for that key. *)
Theorem notifications_bounded (handle : Z) (acts : list Action)
    (k : string) :
  let out := (exec acts (new_browse handle)).2 in
  count_key k (announced_keys out) ≤ count_key k (reported_keys acts)
  ∧ count_key k (lost_keys out) ≤ count_key k (reported_keys acts).
Proof.
  intros out.
  destruct (exec_counts k acts (new_browse handle) (wf_new handle))
    as [Ha Hl].
  fold out in Ha, Hl.
  change (has_key (_pendingEmit (new_browse handle)) k) with 0 in Ha.
  change (has_key (_services (new_browse handle)) k) with 0 in Hl.
  lia.
Qed.

(** ** A burst among other events *)

Section Interleaved.

Context (key : string).

Lemma tracked_fire_all (ts : list Timeout) (b : DnsSdBrowse) :
  wf b → tracked b → tracked (fire_all ts b).1.
Proof.
  revert b. induction ts as [|t ts IH]; intros b Hwf Htr; [done|].
  cbn [fire_all].
  pose proof (wf_fire (t_handle t) b Hwf) as Hwf1.
  pose proof (tracked_fire (t_handle t) b Hwf Htr) as Htr1.
  destruct (fire (t_handle t) b) as [b1 out]. cbn [fst] in *.
  specialize (IH b1 Hwf1 Htr1).
  by destruct (fire_all ts b1) as [b2 log].
Qed.

(** A raw event that is not about [key], on a running session: nothing
    of [key] changes and nothing is announced. *)
Lemma foreign_step (now : nat) (event : RawEvent) (b : DnsSdBrowse) :
  wf b → tracked b → _stopped b = false →
  event_key event ≠ Some key →
  let r := browse_callback now event b in
  wf r.1 ∧ tracked r.1 ∧ _stopped r.1 = false
  ∧ _services r.1 !! key = _services b !! key
  ∧ (∀ t, t_key t = key → t ∈ timeouts r.1 ↔ t ∈ timeouts b)
  ∧ found_in ((λ n, (now, n)) <$> r.2) = [].
Proof.
  intros Hwf Htr Hrun Hk r.
  split; [apply (wf_step (Raw now event) b Hwf)|].
  split; [apply (tracked_step (Raw now event) b Hwf Htr)|].
  assert (∀ k t, k ≠ key → t_key t = key →
            t ∈ match _pendingEmit b !! k with
                | Some h => clearTimeout h (timeouts b)
                | None => timeouts b
                end ↔ t ∈ timeouts b) as Hkeep.
  { intros k t Hne Ht. split; [by intros [? _]%(cleared_key b)|].
    intros Hin. destruct (_pendingEmit b !! k) as [h0|] eqn:Hp0; [|done].
    apply elem_of_clearTimeout. split; [done|].
    apply (pending_distinct b key k); [done|done| |done|by intros ->].
    rewrite <- Ht. by apply (wf_pending b). }
  unfold r, browse_callback. rewrite Hrun.
  destruct event as [s|s|data|ev]; cbn [event_key fst snd] in *;
    [| |done..].
  - assert (service_key s ≠ key) as Hne by congruence.
    cbn [on_serviceFound _services _stopped timeouts].
    rewrite lookup_insert_ne by done. split; [done|]. split; [done|].
    split; [|done].
    intros t Ht. rewrite elem_of_app, list_elem_of_singleton, Hkeep by done.
    split; [|tauto]. intros [?| ->]; [done|]. by cbn in Ht.
  - assert (service_key s ≠ key) as Hne by congruence.
    unfold on_serviceLost.
    destruct (_services b !! service_key s) as [e|] eqn:Hs; [|done].
    cbn [fst snd _services _stopped timeouts].
    rewrite lookup_delete_ne by done. split; [done|]. split; [done|].
    split; [|done].
    specialize (Hkeep (service_key s)).
    destruct (_pendingEmit b !! service_key s) as [h0|] eqn:Hp0; cbn [fst];
      [|done].
    intros t Ht. by apply Hkeep.
Qed.

(** The same event in a timed run: first the timeouts that are due. *)
Lemma foreign_timed_step (now : nat) (event : RawEvent) (b : DnsSdBrowse) :
  wf b → tracked b → _stopped b = false →
  event_key event ≠ Some key →
  let r := timed_step now (InRaw event) b in
  wf r.1 ∧ tracked r.1 ∧ _stopped r.1 = false
  ∧ _services r.1 !! key = _services b !! key
  ∧ (∀ t, t_key t = key →
          t ∈ timeouts r.1 ↔ t ∈ timeouts b ∧ now < t_due t)
  ∧ about key (found_in r.2) = about key (found_in (advance now b).2).
Proof.
  intros Hwf Htr Hrun Hk r.
  destruct (advance_spec now b Hwf Hrun) as (Hwf1 & Hrun1 & Hsvc1 & Hq1 & _).
  pose proof (tracked_fire_all
                (filter (λ t, is_due now t = true) (timeouts b)) b Hwf Htr)
    as Htr1.
  change (fire_all _ b) with (advance now b) in Htr1.
  unfold r, timed_step.
  destruct (advance now b) as [b1 log1]. cbn [fst snd] in *.
  destruct (foreign_step now event b1 Hwf1 Htr1 Hrun1 Hk)
    as (Hwf2 & Htr2 & Hrun2 & Hsvc2 & Hq2 & Hout).
  cbn [input_action step].
  destruct (browse_callback now event b1) as [b2 out]. cbn [fst snd] in *.
  split; [done|]. split; [done|]. split; [done|].
  split; [congruence|]. split.
  - intros t Ht. by rewrite Hq2, Hq1.
  - unfold found_in in *. by rewrite omap_app, Hout, app_nil_r.
Qed.

(** An input the burst allows that is not one of its events is a raw
    event about another key. *)
Lemma burst_input_foreign (x : nat * Input) :
  burst_input key x → burst_of key [x] = [] →
  ∃ event, x = (x.1, InRaw event) ∧ event_key event ≠ Some key.
Proof.
  destruct x as [now [event|]]; [|done]. intros Hin Hnone.
  exists event. split; [done|].
  destruct event as [s|s|data|ev]; cbn in *; [| |done..].
  - destruct (decide (service_key s = key)); [done|]. congruence.
  - congruence.
Qed.

Lemma burst_of_cons (x : nat * Input) (sched : list (nat * Input)) :
  burst_of key (x :: sched) = burst_of key [x] ++ burst_of key sched.
Proof.
  change (x :: sched) with ([x] ++ sched). unfold burst_of.
  by rewrite omap_app.
Qed.

Lemma ordered_ge (prev : nat) (sched : list (nat * Input))
    (x : nat * Input) :
  ordered prev sched → x ∈ sched → prev ≤ x.1.
Proof.
  revert prev. induction sched as [|y sched IH]; intros prev Hord Hx.
  - by apply elem_of_nil in Hx.
  - destruct Hord as [Hle Hord].
    apply elem_of_cons in Hx as [-> | Hx]; [done|].
    specialize (IH _ Hord Hx). lia.
Qed.

Lemma ordered_weaken (prev prev' : nat) (sched : list (nat * Input)) :
  ordered prev sched → prev' ≤ prev → ordered prev' sched.
Proof. destruct sched as [|x sched]; [done|]. intros [??] ?. split; [lia|done]. Qed.

Lemma burst_of_time (sched : list (nat * Input)) (e : nat * Service)
    (prev : nat) :
  ordered prev sched → e ∈ burst_of key sched → prev ≤ e.1.
Proof.
  intros Hord (x & Hx & He)%list_elem_of_omap.
  pose proof (ordered_ge prev sched x Hord Hx) as Hle.
  destruct x as [now [[s| | |]|]]; cbn in He; try done.
  destruct (decide (service_key s = key)); [|done].
  by injection He as <-.
Qed.

(** No timeout is live for [key] and no event of the schedule is about
    [key]: nothing is announced about it. *)
Lemma run_quiet (horizon : nat) (sched : list (nat * Input))
    (b : DnsSdBrowse) :
  wf b → tracked b → _stopped b = false →
  (∀ t, t ∈ timeouts b → t_key t ≠ key) →
  Forall (burst_input key) sched →
  burst_of key sched = [] →
  about key (found_in (run_until horizon sched b).2) = [].
Proof.
  revert b. induction sched as [|x sched IH];
    intros b Hwf Htr Hrun Hnone Hin Hburst.
  - unfold run_until. cbn [run].
    destruct (advance_early horizon key b Hwf Hrun)
      as (_ & _ & _ & _ & Hlog & _).
    { intros t Ht Hk. by apply Hnone in Ht. }
    by destruct (advance horizon b) as [b1 log1].
  - apply Forall_cons in Hin as [Hx Hin].
    rewrite burst_of_cons in Hburst.
    apply app_eq_nil in Hburst as [Hhead Hburst].
    destruct (burst_input_foreign x Hx Hhead) as (event & -> & Hk).
    rewrite run_until_cons.
    destruct (foreign_timed_step x.1 event b Hwf Htr Hrun Hk)
      as (Hwf1 & Htr1 & Hrun1 & _ & Hq1 & Hlog1).
    destruct (advance_early x.1 key b Hwf Hrun)
      as (_ & _ & _ & _ & Hlog & _).
    { intros t Ht Hkt. by apply Hnone in Ht. }
    cbn [fst snd]. unfold found_in, about in *.
    rewrite omap_app, filter_app, Hlog1, Hlog. cbn [app].
    apply IH; [done..| |done|done].
    intros t Ht Hkt. apply (Hq1 t Hkt) in Ht as [Ht _]. by apply Hnone in Ht.
Qed.

End Interleaved.

Section BurstAmongOthers.

Context (key : string) (horizon : nat).

Lemma wf_fire_all (ts : list Timeout) (b : DnsSdBrowse) :
  wf b → wf (fire_all ts b).1.
Proof.
  revert b. induction ts as [|t ts IH]; intros b Hwf; [done|].
  cbn [fire_all]. pose proof (wf_fire (t_handle t) b Hwf) as Hwf1.
  destruct (fire (t_handle t) b) as [b1 out]. cbn [fst] in *.
  specialize (IH b1 Hwf1). by destruct (fire_all ts b1) as [b2 log].
Qed.

Lemma tracked_timed_step (now : nat) (i : Input) (b : DnsSdBrowse) :
  wf b → tracked b → tracked (timed_step now i b).1.
Proof.
  intros Hwf Htr. unfold timed_step.
  pose proof (wf_fire_all
                (filter (λ t, is_due now t = true) (timeouts b)) b Hwf)
    as Hwf1.
  pose proof (tracked_fire_all
                (filter (λ t, is_due now t = true) (timeouts b)) b Hwf Htr)
    as Htr1.
  change (fire_all _ b) with (advance now b) in Hwf1, Htr1.
  destruct (advance now b) as [b1 log1]. cbn [fst] in *.
  pose proof (tracked_step (input_action now i) b1 Hwf1 Htr1) as Htr2.
  by destruct (step (input_action now i) b1) as [b2 out].
Qed.

(** The burst is under way: the timeout of [key] is pending, due one
    debounce interval after the last event of the burst, [prev]. *)
Lemma burst_under_way (sched : list (nat * Input)) (b : DnsSdBrowse)
    (prev : nat) (agg : Service) :
  pending_for key (prev + DEBOUNCE_TIMEOUT) agg b → tracked b →
  Forall (burst_input key) sched →
  ordered prev sched →
  within_window prev (burst_of key sched) →
  last_time prev (burst_of key sched) + DEBOUNCE_TIMEOUT ≤ horizon →
  let final := foldl merge_entry agg (burst_of key sched).*2 in
  about key (found_in (run_until horizon sched b).2)
  = (if 0 <? length (addresses final)
     then [(last_time prev (burst_of key sched) + DEBOUNCE_TIMEOUT, final)]
     else []).
Proof.
  revert b prev agg. induction sched as [|x sched IH];
    intros b prev agg Hpend Htr Hin Hord Hwin Hhorizon.
  - cbn in *. unfold run_until. cbn [run].
    destruct (advance_due horizon key _ agg b Hpend Hhorizon) as [Hf _].
    by destruct (advance horizon b) as [b1 log1].
  - apply Forall_cons in Hin as [Hx Hin]. destruct Hord as [Hle Hord].
    rewrite burst_of_cons in Hwin, Hhorizon |- *.
    destruct (burst_of key [x]) as [|e es] eqn:Hhead.
    + (* an event about another key *)
      destruct (burst_input_foreign key x Hx Hhead) as (event & Hxeq & Hk).
      cbn [app] in *. rewrite Hxeq, run_until_cons. cbn [fst snd].
      destruct Hpend as (Hwf & Hrun & Hagg & h & Hlive).
      destruct (foreign_timed_step key x.1 event b Hwf Htr Hrun Hk)
        as (Hwf1 & Htr1 & Hrun1 & Hsvc1 & Hq1 & Hlog1).
      unfold found_in, about in *. rewrite omap_app, filter_app, Hlog1.
      destruct (decide (x.1 < prev + DEBOUNCE_TIMEOUT)) as [Hearly|Hlate].
      * (* before the timeout is due *)
        destruct (advance_early x.1 key b Hwf Hrun)
          as (_ & _ & _ & _ & Hlog & _).
        { intros t Ht Hkt.
          assert (t = mkTimeout h key (prev + DEBOUNCE_TIMEOUT)) as ->;
            [|done].
          by apply (same_key_same_timeout b). }
        unfold found_in, about in Hlog. rewrite Hlog. cbn [app].
        apply IH; [|done|done| |done|done].
        -- split; [done|]. split; [done|]. split; [congruence|].
           exists h.
           apply (Hq1 (mkTimeout h key (prev + DEBOUNCE_TIMEOUT)) eq_refl).
           split; [done|]. cbn. lia.
        -- by apply (ordered_weaken x.1).
      * (* the timeout is due: the burst is over *)
        assert (burst_of key sched = []) as Hdone.
        { destruct (burst_of key sched) as [|e es] eqn:Hrest; [done|].
          exfalso. destruct Hwin as [[_ Hlt] _].
          assert (e ∈ burst_of key sched) as He
            by (rewrite Hrest; apply list_elem_of_here).
          pose proof (burst_of_time key sched e x.1 Hord He). lia. }
        rewrite Hdone in *. cbn [fmap list_fmap foldl last_time] in *.
        destruct (advance_due x.1 key (prev + DEBOUNCE_TIMEOUT) agg b)
          as [Hf _];
          [split; [done|split; [done|split; [done|by exists h]]]|lia|].
        unfold found_in, about in Hf. rewrite Hf.
        assert (about key
                  (found_in
                     (run_until horizon sched
                        (timed_step x.1 (InRaw event) b).1).2) = [])
          as Hquiet.
        { apply run_quiet; [done|done|done| |done|done].
          intros t Ht Hkt. apply (Hq1 t Hkt) in Ht as [Ht Hlt].
          assert (t = mkTimeout h key (prev + DEBOUNCE_TIMEOUT)) as ->
            by by apply (same_key_same_timeout b).
          cbn in Hlt. lia. }
        unfold found_in, about in Hquiet. rewrite Hquiet.
        by rewrite app_nil_r.
    + (* an event of the burst *)
      destruct x as [now [[s| | |]|]]; cbn in Hhead; try done.
      destruct (decide (service_key s = key)) as [Hkey|]; [|done].
      injection Hhead as <- <-. cbn [app fst snd] in *.
      destruct Hwin as [[Hge Hlt] Hwin].
      destruct (burst_event now prev key agg s b Hpend Hkey Hlt)
        as (Hpend1 & Hf1 & _).
      pose proof (tracked_timed_step now (InRaw (RawFound s)) b
                    (proj1 Hpend) Htr) as Htr1.
      rewrite run_until_cons. cbn [fst snd fmap list_fmap foldl].
      unfold found_in, about in *. rewrite omap_app, filter_app, Hf1.
      cbn [app]. by apply IH.
Qed.

(** Before the burst: events about other keys, until its first event. *)
Lemma burst_begins (sched : list (nat * Input)) (b : DnsSdBrowse)
    (start t0 : nat) (first : Service) (rest : list (nat * Service)) :
  wf b → tracked b → _stopped b = false →
  (∀ t, t ∈ timeouts b → t_key t = key → t0 < t_due t) →
  service_key first = key →
  Forall (burst_input key) sched →
  ordered start sched →
  burst_of key sched = (t0, first) :: rest →
  within_window t0 rest →
  last_time t0 rest + DEBOUNCE_TIMEOUT ≤ horizon →
  let agg := aggregate (_services b !! key) first rest.*2 in
  about key (found_in (run_until horizon sched b).2)
  = (if 0 <? length (addresses agg)
     then [(last_time t0 rest + DEBOUNCE_TIMEOUT, agg)] else []).
Proof.
  intros Hwf Htr Hrun Hlater Hkey Hin.
  revert b start Hwf Htr Hrun Hlater. induction sched as [|x sched IH];
    intros b start Hwf Htr Hrun Hlater Hord Hburst Hwin Hhorizon; [done|].
  apply Forall_cons in Hin as [Hx Hin]. destruct Hord as [Hle Hord].
  rewrite burst_of_cons in Hburst.
  destruct (burst_of key [x]) as [|e es] eqn:Hhead.
  - destruct (burst_input_foreign key x Hx Hhead) as (event & Hxeq & Hk).
    cbn [app] in Hburst. rewrite Hxeq, run_until_cons. cbn [fst snd].
    assert (x.1 ≤ t0) as Hbefore.
    { apply (burst_of_time key sched (t0, first) x.1 Hord).
      rewrite Hburst. apply list_elem_of_here. }
    destruct (foreign_timed_step key x.1 event b Hwf Htr Hrun Hk)
      as (Hwf1 & Htr1 & Hrun1 & Hsvc1 & Hq1 & Hlog1).
    destruct (advance_early x.1 key b Hwf Hrun)
      as (_ & _ & _ & _ & Hlog & _).
    { intros t Ht Hkt. specialize (Hlater t Ht Hkt). lia. }
    unfold found_in, about in *.
    rewrite omap_app, filter_app, Hlog1, Hlog. cbn [app].
    rewrite <- Hsvc1. apply (IH Hin _ x.1); try done.
    intros t Ht Hkt. apply (Hq1 t Hkt) in Ht as [Ht _]. by apply Hlater.
  - destruct x as [now [[s| | |]|]]; cbn in Hhead; try done.
    destruct (decide (service_key s = key)) as [Hks|]; [|done].
    injection Hhead as <- <-. cbn [app fst snd] in *.
    injection Hburst as -> -> Hrest.
    destruct (advance_early t0 key b Hwf Hrun)
      as (Hwf1 & Hrun1 & Hsvc1 & _ & Hlog1 & _); [done|].
    pose proof (found_pending t0 first _ Hwf1 Hrun1) as Hpend.
    rewrite Hsvc1, Hkey in Hpend.
    pose proof (tracked_timed_step t0 (InRaw (RawFound first)) b Hwf Htr)
      as Htr1.
    rewrite run_until_cons. rewrite timed_step_found in * by done.
    cbn [fst snd] in *.
    unfold found_in, about in *. rewrite omap_app, filter_app, Hlog1.
    cbn [app].
    pose proof (burst_under_way sched _ t0 _ Hpend Htr1 Hin Hord) as Hgo.
    rewrite Hrest in Hgo. by apply Hgo.
Qed.

End BurstAmongOthers.

(** C4, as the code has it: take a running session and a schedule of raw
    events in time order in which the [serviceFound] events about one key
    (the name, type and domain joined with [|]) form a burst, each
    arriving less than a debounce interval after the one before; no
    [serviceLost] for the key and no [stop()] occur, no timeout for the key
    is overdue when the burst begins, and events about other keys and
    errors may arrive at any time, before, during and after the burst.
    Then the session emits about that key exactly one [serviceFound], one
    debounce interval after the last event of the burst and carrying the
    entry all events of the burst were merged into, provided that entry
    has an address, and none otherwise.  When the key was not in the table
    and no address has more than one percent sign, the addresses carried
    are, as a set, the normalised addresses of all events of the burst. *)
Theorem burst_emits_once (handle : Z) (pre : list Action)
    (sched : list (nat * Input)) (t0 : nat) (first : Service)
    (rest : list (nat * Service)) (horizon : nat) :
  let b := (exec pre (new_browse handle)).1 in
  let key := service_key first in
  let agg := aggregate (_services b !! key) first rest.*2 in
  let last := last_time t0 rest in
  let log := (run_until horizon sched b).2 in
  _stopped b = false →
  Forall (burst_input key) sched →
  ordered 0 sched →
  burst_of key sched = (t0, first) :: rest →
  within_window t0 rest →
  Forall (λ t, t_key t = key → t0 < t_due t) (timeouts b) →
  last + DEBOUNCE_TIMEOUT ≤ horizon →
  key = name first +:+ "|" +:+ type first +:+ "|" +:+ domain first
  ∧ about key (found_in log)
    = (if 0 <? length (addresses agg)
       then [(last + DEBOUNCE_TIMEOUT, agg)] else [])
  ∧ (_services b !! key = None →
     Forall (λ s, Forall (λ x, count_percent x ≤ 1) (addresses s))
       (first :: rest.*2) →
     ∀ a, a ∈ addresses agg
          ↔ ∃ s a', s ∈ first :: rest.*2 ∧ a' ∈ addresses s
                    ∧ a = strip_scope a').
Proof.
  intros b key agg last log Hrun Hin Hord Hburst Hwin Hlater Hhorizon.
  pose proof (wf_reachable handle pre) as Hwf.
  pose proof (tracked_reachable handle pre) as Htr. fold b in Hwf, Htr.
  split; [done|]. split.
  - apply (burst_begins key horizon sched b 0 t0 first rest); try done.
    intros t Ht. by apply (proj1 (Forall_forall _ _) Hlater).
  - intros Hnew Hsimple a. apply Forall_cons in Hsimple as [Hfirst Hsimple].
    unfold agg, aggregate. rewrite Hnew. cbn [merge_found].
    rewrite aggregate_addresses; [|..|done].
    + cbn [create_entry addresses]. rewrite list_elem_of_fmap. split.
      * intros [(a' & -> & Ha') | (s & a' & Hs & Ha' & ->)].
        -- exists first, a'. split; [apply list_elem_of_here|done].
        -- exists s, a'. split; [by apply list_elem_of_further|done].
      * intros (s & a' & [-> | Hs]%elem_of_cons & Ha' & ->).
        -- left. by exists a'.
        -- right. by exists s, a'.
    + cbn [create_entry addresses].
      intros x (a' & -> & Ha')%list_elem_of_fmap.
      apply strip_scope_idem_simple.
      by apply (proj1 (Forall_forall _ _) Hfirst).
Qed.

Lemma burst_emits_once_witness :
  about (service_key (printer []))
    (found_in
       (run_until 150
          [(0, InRaw (RawFound (printer ["192.168.1.20"])));
           (20, InRaw (RawFound (den_tv ["192.168.1.30"])));
           (50, InRaw (RawFound (printer ["fe80::1%eth0"])));
           (60, InRaw (RawError "timeout"));
           (130, InRaw (RawLost (attic_tv [])))]
          (new_browse 1)).2)
  = [(150, printer ["192.168.1.20"; "fe80::1"])].
Proof.
  apply (burst_emits_once 1 []
           [(0, InRaw (RawFound (printer ["192.168.1.20"])));
            (20, InRaw (RawFound (den_tv ["192.168.1.30"])));
            (50, InRaw (RawFound (printer ["fe80::1%eth0"])));
            (60, InRaw (RawError "timeout"));
            (130, InRaw (RawLost (attic_tv [])))]
           0 (printer ["192.168.1.20"])
           [(50, printer ["fe80::1%eth0"])] 150).
  - reflexivity.
  - repeat constructor. vm_compute. discriminate.
  - vm_compute. lia.
  - reflexivity.
  - vm_compute. lia.
  - constructor.
  - vm_compute. lia.
Defined.

(** C4 as stated fails for a burst that reports no address: nothing is
    emitted, however long one waits. *)
Lemma burst_without_address_emits_nothing :
  found_in
    (run_until 1000 (found_at <$> [(0, printer [])]) (new_browse 1)).2
  = [].
Proof. by vm_compute. Qed.
